(** * Tri-lighting operator (lighting_tri_lights.py)

    A shallow embedding of [OBJECT_OT_TriLighting.execute]: the operator
    that adds a key, a fill and a back light around the active object,
    placed relative to the scene camera.  [poll] and [draw] are embedded
    beside it.

    Numbers.  The operator computes with Python floats and with the
    host's float vectors.  The embedding computes with the real numbers
    of the Standard Library ([sqrt], [sin], [cos], [PI]): every formula
    is the source's formula, read over exact arithmetic.  Rounding is
    not modelled.

    Host.  [bpy] is outside the file.  Its data blocks, objects,
    collection links and constraints are a store ([World]) that the
    operator mutates through handles (indices), as the Python code
    mutates the objects it holds references to.  A host call can raise;
    which calls do is an input of an invocation ([ctx_fault]). *)

From Stdlib Require Import Reals Lra ZArith String.
From stdpp Require Import base decidable option list.

Open Scope R_scope.
Open Scope string_scope.
Open Scope list_scope.

(** ** Data *)

(** [Light_Type_List] and [Light_Shape_List]. *)
Inductive LightType := POINT | SUN | SPOT | AREA.
Inductive LightShape := SQUARE | RECTANGLE | DISK | ELLIPSE.

#[global] Instance LightType_eq_dec : EqDecision LightType.
Proof. solve_decision. Defined.

(** A [mathutils.Vector] of size three. *)
Record Vec3 := mkVec3 { vx : R; vy : R; vz : R }.

Definition vsub (a b : Vec3) : Vec3 :=
  mkVec3 (vx a - vx b) (vy a - vy b) (vz a - vz b).
Definition vscale (k : R) (a : Vec3) : Vec3 :=
  mkVec3 (k * vx a) (k * vy a) (k * vz a).

(** [math.radians]. *)
Definition radians (deg : R) : R := deg * (PI / 180).

(** The operator's properties ([self.height], ...), with the names of the
    source.  The three angles, the energy and the contrast are
    [IntProperty]s; the others are floats or enumerations. *)
Record Props := mkProps {
  height : R;
  distance : R;
  energy : Z;
  contrast : Z;
  leftangle : Z;
  rightangle : Z;
  backangle : Z;
  primarytype : LightType;
  secondarytype : LightType;
  key_light_shape : LightShape;
  secondary_light_shape : LightShape;
  key_light_size : R;
  secondary_light_size : R;
  shadow_soft_size_key : R;
  shadow_soft_size_fill : R;
  spot_size_key : R;
  spot_blend_key : R;
  spot_size_fill : R;
  spot_blend_fill : R
}.

(** The ranges the property declarations give ([min=], [max=]); the host
    clamps every value it stores to them. *)
Record props_in_range (p : Props) : Prop := {
  distance_min : 0.1 <= distance p;
  energy_min : (1 <= energy p)%Z;
  contrast_range : (-100 <= contrast p <= 100)%Z;
  leftangle_range : (1 <= leftangle p <= 90)%Z;
  rightangle_range : (1 <= rightangle p <= 90)%Z;
  backangle_range : (90 <= backangle p <= 270)%Z
}.

(** A light data block ([bpy.data.lights.new]).  The operator assigns
    some of its attributes and leaves the others as the host created
    them: an attribute is [None] until the operator assigns it. *)
Record LightData := mkLightData {
  l_name : string;
  l_type : LightType;
  l_energy : option R;
  l_shape : option LightShape;
  l_size : option R;
  l_spot_size : option R;
  l_spot_blend : option R;
  l_shadow_soft_size : option R
}.

(** A constraint of an object ([ob.constraints.new]); [None] as above. *)
Record Constraint := mkConstraint {
  c_type : string;
  c_target : option nat;
  c_track_axis : option string;
  c_up_axis : option string
}.

(** What an object carries: a camera or light data block (by handle), or
    something the operator does not look at (a mesh, an empty, ...). *)
Inductive ObData := OCamera (i : nat) | OLight (i : nat) | OOther.

Record Object := mkObject {
  o_name : string;
  o_data : ObData;
  o_location : Vec3;
  o_constraints : list Constraint
}.

(** The part of the host's state the operator reads and writes.  Handles
    are positions in [w_lights] and [w_objects]. *)
Record World := mkWorld {
  w_cameras : list string;          (* bpy.data.cameras *)
  w_lights : list LightData;        (* bpy.data.lights *)
  w_objects : list Object;          (* bpy.data.objects *)
  w_collection : list nat;          (* context.collection.objects *)
  w_scene_camera : option nat;      (* context.scene.camera *)
  w_reports : list (string * string); (* self.report *)
  w_console : list string           (* print *)
}.

(** [context.space_data]: the editor the operator runs in. *)
Record SpaceData := mkSpaceData {
  sd_type : string;
  sd_camera : option nat
}.

Inductive Slot := Back | Fill | Key.

(** The host calls of [execute], by place in the source. *)
Inductive Site :=
| SCamerasNew | SCamObjectsNew | SCamLink | SCameraToView | SViewCamera
| SLightsNew (s : Slot) | SObjectsNew (s : Slot) | SLink (s : Slot)
| SConstraintsNew (s : Slot).

(** What an invocation is given besides the properties and the world. *)
Record Context := mkContext {
  ctx_space_data : option SpaceData;   (* None: no editor, e.g. background *)
  ctx_active : option nat;             (* view_layer.objects.active *)
  ctx_view_location : Vec3;            (* the viewpoint of the 3D view *)
  ctx_fault : Site -> option string    (* Some e: this host call raises e *)
}.

Inductive Status := FINISHED | CANCELLED.

(** ** State and exceptions

    A computation runs on the world and ends with a value or with a
    raised exception (its message); the world it has reached is kept in
    both cases, as Python keeps the heap when an exception unwinds. *)

Inductive Outcome (A : Type) := Ok (a : A) | Raise (e : string).
Arguments Ok {A} a.
Arguments Raise {A} e.

Definition M (A : Type) : Type := World -> Outcome A * World.

Definition ret {A} (a : A) : M A := fun w => (Ok a, w).
Definition raise {A} (e : string) : M A := fun w => (Raise e, w).
Definition bind {A B} (m : M A) (k : A -> M B) : M B :=
  fun w => match m w with
           | (Ok a, w') => k a w'
           | (Raise e, w') => (Raise e, w')
           end.
Definition try_except {A} (m : M A) (handler : string -> M A) : M A :=
  fun w => match m w with
           | (Ok a, w') => (Ok a, w')
           | (Raise e, w') => handler e w'
           end.

Notation "x <- m ;; k" := (bind m (fun x => k))
  (at level 100, m at next level, right associativity).
Notation "m ;;; k" := (bind m (fun _ => k))
  (at level 100, right associativity).

Definition when (b : bool) (m : M unit) : M unit := if b then m else ret tt.
Definition get {A} (f : World -> A) : M A := fun w => (Ok (f w), w).
Definition modify (f : World -> World) : M unit := fun w => (Ok tt, f w).

(** ** Updates of the store *)

Definition with_cameras (f : list string -> list string) (w : World) : World :=
  mkWorld (f (w_cameras w)) (w_lights w) (w_objects w) (w_collection w)
          (w_scene_camera w) (w_reports w) (w_console w).
Definition with_lights (f : list LightData -> list LightData) (w : World) : World :=
  mkWorld (w_cameras w) (f (w_lights w)) (w_objects w) (w_collection w)
          (w_scene_camera w) (w_reports w) (w_console w).
Definition with_objects (f : list Object -> list Object) (w : World) : World :=
  mkWorld (w_cameras w) (w_lights w) (f (w_objects w)) (w_collection w)
          (w_scene_camera w) (w_reports w) (w_console w).
Definition with_collection (f : list nat -> list nat) (w : World) : World :=
  mkWorld (w_cameras w) (w_lights w) (w_objects w) (f (w_collection w))
          (w_scene_camera w) (w_reports w) (w_console w).
Definition with_scene_camera (c : option nat) (w : World) : World :=
  mkWorld (w_cameras w) (w_lights w) (w_objects w) (w_collection w)
          c (w_reports w) (w_console w).
Definition with_reports (f : list (string * string) -> list (string * string))
    (w : World) : World :=
  mkWorld (w_cameras w) (w_lights w) (w_objects w) (w_collection w)
          (w_scene_camera w) (f (w_reports w)) (w_console w).
Definition with_console (f : list string -> list string) (w : World) : World :=
  mkWorld (w_cameras w) (w_lights w) (w_objects w) (w_collection w)
          (w_scene_camera w) (w_reports w) (f (w_console w)).

(** Attribute assignments. *)
Definition set_energy (v : R) (l : LightData) : LightData :=
  mkLightData (l_name l) (l_type l) (Some v) (l_shape l) (l_size l)
              (l_spot_size l) (l_spot_blend l) (l_shadow_soft_size l).
Definition set_shape (v : LightShape) (l : LightData) : LightData :=
  mkLightData (l_name l) (l_type l) (l_energy l) (Some v) (l_size l)
              (l_spot_size l) (l_spot_blend l) (l_shadow_soft_size l).
Definition set_size (v : R) (l : LightData) : LightData :=
  mkLightData (l_name l) (l_type l) (l_energy l) (l_shape l) (Some v)
              (l_spot_size l) (l_spot_blend l) (l_shadow_soft_size l).
Definition set_spot_size (v : R) (l : LightData) : LightData :=
  mkLightData (l_name l) (l_type l) (l_energy l) (l_shape l) (l_size l)
              (Some v) (l_spot_blend l) (l_shadow_soft_size l).
Definition set_spot_blend (v : R) (l : LightData) : LightData :=
  mkLightData (l_name l) (l_type l) (l_energy l) (l_shape l) (l_size l)
              (l_spot_size l) (Some v) (l_shadow_soft_size l).
Definition set_shadow_soft_size (v : R) (l : LightData) : LightData :=
  mkLightData (l_name l) (l_type l) (l_energy l) (l_shape l) (l_size l)
              (l_spot_size l) (l_spot_blend l) (Some v).

Definition set_location (v : Vec3) (o : Object) : Object :=
  mkObject (o_name o) (o_data o) v (o_constraints o).
Definition with_constraints (f : list Constraint -> list Constraint)
    (o : Object) : Object :=
  mkObject (o_name o) (o_data o) (o_location o) (f (o_constraints o)).

Definition set_target (t : option nat) (c : Constraint) : Constraint :=
  mkConstraint (c_type c) t (c_track_axis c) (c_up_axis c).
Definition set_track_axis (a : string) (c : Constraint) : Constraint :=
  mkConstraint (c_type c) (c_target c) (Some a) (c_up_axis c).
Definition set_up_axis (a : string) (c : Constraint) : Constraint :=
  mkConstraint (c_type c) (c_target c) (c_track_axis c) (Some a).

Definition with_x (x : R) (v : Vec3) : Vec3 := mkVec3 x (vy v) (vz v).
Definition with_y (y : R) (v : Vec3) : Vec3 := mkVec3 (vx v) y (vz v).

Definition origin : Vec3 := mkVec3 0 0 0.

Definition nl : string := String (Ascii.ascii_of_nat 10) EmptyString.

Definition msg_degenerate : string :=
  "Operation Cancelled. No viable object in the scene".
Definition msg_exception : string :=
  "Some operations could not be performed (See Console for more info)".
(** The text [execute] prints for a caught exception [e]. *)
Definition console_text (e : string) : string :=
  String.append nl (String.append "[Add Advanced  Objects]"
    (String.append nl (String.append "Operator: object.trilighting"
      (String.append nl (String.append "Error: " e))))).

(** What [draw] asks of the panel, call by call: a label or a new
    column of the layout, and a label or a property field of the current
    column (the last one made); a field may come with its own text. *)
Inductive UiCall :=
| LayoutLabel (text : string)
| LayoutColumn (align : bool)
| ColLabel (text : string)
| ColProp (name : string) (text : option string).

(** ** The operator *)

Section Operator.

Variable ctx : Context.
Variable self : Props.

(** *** [poll] and [draw] *)


(** Lines 174-233, as the list of the calls on the layout, in order. *)
Definition draw : list UiCall :=
  [ LayoutLabel "Position:";
    LayoutColumn true;
    ColProp "height" None;
    ColProp "distance" None;
    LayoutLabel "Light:";
    LayoutColumn true;
    ColProp "energy" None;
    ColProp "contrast" None;
    LayoutLabel "Orientation:";
    LayoutColumn true;
    ColProp "leftangle" None;
    ColProp "rightangle" None;
    ColProp "backangle" None;
    LayoutColumn false;
    ColLabel "Key Light Type:";
    ColProp "primarytype" (Some "");
    ColLabel "Fill + Back Type:";
    ColProp "secondarytype" (Some "");
    ColLabel "Key Light Shape and Size:" ]
  ++ (if bool_decide (primarytype self = AREA)
      then [ ColProp "key_light_shape" None;
             ColProp "key_light_size" None ]
      else [])
  ++ (if bool_decide (primarytype self = POINT)
         || bool_decide (primarytype self = SPOT)
      then [ ColLabel "Key Light Shadow Soft Size:";
             ColProp "shadow_soft_size_key" None ]
      else [])
  ++ (if bool_decide (primarytype self = SPOT)
      then [ ColLabel "Key Spot Light Size (in Degrees):";
             ColProp "spot_size_key" None;
             ColLabel "Key Spot Light Blend:";
             ColProp "spot_blend_key" None ]
      else [])
  ++ [ ColLabel "Fill + Back Light Shape and Size:" ]
  ++ (if bool_decide (secondarytype self = AREA)
      then [ ColProp "secondary_light_shape" None;
             ColProp "secondary_light_size" None ]
      else [])
  ++ (if bool_decide (secondarytype self = POINT)
         || bool_decide (secondarytype self = SPOT)
      then [ ColLabel "Fill + Back Light Shadow Soft Size:";
             ColProp "shadow_soft_size_fill" None ]
      else [])
  ++ (if bool_decide (secondarytype self = SPOT)
      then [ ColLabel "Fill + Back Spot Light Size (in Degrees):";
             ColProp "spot_size_fill" None;
             ColLabel "Fill + Back Spot Light Blend:";
             ColProp "spot_blend_fill" None ]
      else []).

(** *** Host calls *)

(** Entry of a host call: it raises when the host makes it fail. *)
Definition host_call (s : Site) : M unit :=
  fun w => match ctx_fault ctx s with
           | Some e => (Raise e, w)
           | None => (Ok tt, w)
           end.

(** [bpy.data.cameras.new(name=...)] *)
Definition cameras_new (name : string) : M nat :=
  host_call SCamerasNew ;;;
  n <- get (fun w => length (w_cameras w)) ;;
  modify (with_cameras (fun l => l ++ [name])) ;;;
  ret n.

(** [bpy.data.objects.new(name=..., object_data=...)]; a new object
    sits at the origin and has no constraint. *)
Definition objects_new (s : Site) (name : string) (data : ObData) : M nat :=
  host_call s ;;;
  n <- get (fun w => length (w_objects w)) ;;
  modify (with_objects (fun l => l ++ [mkObject name data origin []])) ;;;
  ret n.

(** [collection.objects.link(ob)] *)
Definition link (s : Site) (ob : nat) : M unit :=
  host_call s ;;;
  modify (with_collection (fun l => l ++ [ob])).

(** [bpy.ops.view3d.camera_to_view()]: the host moves the scene's
    camera to the viewpoint. *)
Definition camera_to_view : M unit :=
  host_call SCameraToView ;;;
  modify (fun w => match w_scene_camera w with
                   | Some c => with_objects
                                 (alter (set_location (ctx_view_location ctx)) c) w
                   | None => w
                   end).

(** [bpy.ops.view3d.view_camera()]: changes the view only. *)
Definition view_camera : M unit := host_call SViewCamera.

(** [bpy.data.lights.new(name=..., type=...)] *)
Definition lights_new (s : Site) (name : string) (ty : LightType) : M nat :=
  host_call s ;;;
  n <- get (fun w => length (w_lights w)) ;;
  modify (with_lights
            (fun l => l ++ [mkLightData name ty None None None None None None])) ;;;
  ret n.

(** [data.attr = v] and [ob.attr = v], through the handle. *)
Definition set_light (i : nat) (f : LightData -> LightData) : M unit :=
  modify (with_lights (alter f i)).
Definition set_object (i : nat) (f : Object -> Object) : M unit :=
  modify (with_objects (alter f i)).

(** [ob.constraints.new(type=...)]; the handle of a constraint is the
    object's handle and the position among its constraints. *)
Definition constraints_new (s : Site) (ob : nat) (ty : string) : M (nat * nat) :=
  host_call s ;;;
  n <- get (fun w => match w_objects w !! ob with
                     | Some o => length (o_constraints o)
                     | None => 0%nat
                     end) ;;
  set_object ob (with_constraints (fun l => l ++ [mkConstraint ty None None None])) ;;;
  ret (ob, n).
Definition set_constraint (h : nat * nat) (f : Constraint -> Constraint) : M unit :=
  set_object (fst h) (with_constraints (alter f (snd h))).

(** [ob.location], read: [ob] may be [None] (AttributeError). *)
Definition location_of (ob : option nat) : M Vec3 :=
  fun w => match ob with
           | None => (Raise "'NoneType' object has no attribute 'location'", w)
           | Some i => match w_objects w !! i with
                       | Some o => (Ok (o_location o), w)
                       | None => (Raise "StructRNA of type Object has been removed", w)
                       end
           end.

Definition report (level msg : string) : M unit :=
  modify (with_reports (fun l => l ++ [(level, msg)])).
Definition print (s : string) : M unit :=
  modify (with_console (fun l => l ++ [s])).

(** *** [execute] *)

(** Lines 237-253: the camera of the 3D view, else the scene's; when
    there is none, a camera is made, linked, set as the scene's camera
    and moved to the viewpoint. *)
Definition find_camera : M (option nat) :=
  match ctx_space_data ctx with
  | None => raise "'NoneType' object has no attribute 'type'"
  | Some view =>
      camera <- (if String.eqb (sd_type view) "VIEW_3D"
                 then ret (sd_camera view)
                 else get w_scene_camera) ;;
      match camera with
      | None =>
          cam_data <- cameras_new "Camera" ;;
          cam_obj <- objects_new SCamObjectsNew "Camera" (OCamera cam_data) ;;
          link SCamLink cam_obj ;;;
          modify (with_scene_camera (Some cam_obj)) ;;;
          camera_to_view ;;;
          let camera := Some cam_obj in
          view_camera ;;;
          ret camera
      | Some _ => ret camera
      end
  end.

(** Lines 258-265. *)
Definition keyEnergy : R :=
  if (0 <? contrast self)%Z then IZR (energy self)
  else (IZR (energy self) / 100) * IZR (Z.abs (contrast self)).
Definition backEnergy : R :=
  if (0 <? contrast self)%Z
  then (IZR (energy self) / 100) * IZR (Z.abs (contrast self))
  else IZR (energy self).
Definition fillEnergy : R :=
  if (0 <? contrast self)%Z
  then (IZR (energy self) / 100) * IZR (Z.abs (contrast self))
  else IZR (energy self).

(** Lines 274-278. *)
Definition vector_length_of (delta_position : Vec3) : R :=
  sqrt (vx delta_position ^ 2 + vy delta_position ^ 2 + vz delta_position ^ 2).

(** Lines 288-320, "Calc back position". *)
Definition calc_back (obj : option nat) (obj_position single_vector : Vec3)
    : M unit :=
  let singleback_vector := single_vector in
  let singleback_vector :=
    with_x (cos (radians (IZR (backangle self))) * vx single_vector +
            (- sin (radians (IZR (backangle self))) * vy single_vector))
           singleback_vector in
  let singleback_vector :=
    with_y (sin (radians (IZR (backangle self))) * vx single_vector +
            (cos (radians (IZR (backangle self))) * vy single_vector))
           singleback_vector in
  let backx := vx obj_position + distance self * vx singleback_vector in
  let backy := vy obj_position + distance self * vy singleback_vector in
  backData <- lights_new (SLightsNew Back) "TriLamp-Back" (secondarytype self) ;;
  set_light backData (set_energy backEnergy) ;;;
  when (bool_decide (secondarytype self = AREA))
    (set_light backData (set_shape (secondary_light_shape self)) ;;;
     set_light backData (set_size (secondary_light_size self))) ;;;
  when (bool_decide (secondarytype self = SPOT))
    (set_light backData (set_spot_size (radians (spot_size_fill self))) ;;;
     set_light backData (set_spot_blend (spot_blend_fill self))) ;;;
  when (bool_decide (secondarytype self = POINT)
        || bool_decide (secondarytype self = SPOT))
    (set_light backData (set_shadow_soft_size (shadow_soft_size_fill self))) ;;;
  backLamp <- objects_new (SObjectsNew Back) "TriLamp-Back" (OLight backData) ;;
  link (SLink Back) backLamp ;;;
  set_object backLamp (set_location (mkVec3 backx backy (height self))) ;;;
  trackToBack <- constraints_new (SConstraintsNew Back) backLamp "TRACK_TO" ;;
  set_constraint trackToBack (set_target obj) ;;;
  set_constraint trackToBack (set_track_axis "TRACK_NEGATIVE_Z") ;;;
  set_constraint trackToBack (set_up_axis "UP_Y").

(** Lines 322-350, "Calc right position". *)
Definition calc_right (obj : option nat) (obj_position single_vector : Vec3)
    : M unit :=
  let singleright_vector := single_vector in
  let singleright_vector :=
    with_x (cos (radians (IZR (rightangle self))) * vx single_vector +
            (- sin (radians (IZR (rightangle self))) * vy single_vector))
           singleright_vector in
  let singleright_vector :=
    with_y (sin (radians (IZR (rightangle self))) * vx single_vector +
            (cos (radians (IZR (rightangle self))) * vy single_vector))
           singleright_vector in
  let rightx := vx obj_position + distance self * vx singleright_vector in
  let righty := vy obj_position + distance self * vy singleright_vector in
  rightData <- lights_new (SLightsNew Fill) "TriLamp-Fill" (secondarytype self) ;;
  set_light rightData (set_energy fillEnergy) ;;;
  when (bool_decide (secondarytype self = AREA))
    (set_light rightData (set_shape (secondary_light_shape self)) ;;;
     set_light rightData (set_size (secondary_light_size self))) ;;;
  when (bool_decide (secondarytype self = SPOT))
    (set_light rightData (set_spot_size (radians (spot_size_fill self))) ;;;
     set_light rightData (set_spot_blend (spot_blend_fill self))) ;;;
  when (bool_decide (secondarytype self = POINT)
        || bool_decide (secondarytype self = SPOT))
    (set_light rightData (set_shadow_soft_size (shadow_soft_size_fill self))) ;;;
  rightLamp <- objects_new (SObjectsNew Fill) "TriLamp-Fill" (OLight rightData) ;;
  link (SLink Fill) rightLamp ;;;
  set_object rightLamp (set_location (mkVec3 rightx righty (height self))) ;;;
  trackToRight <- constraints_new (SConstraintsNew Fill) rightLamp "TRACK_TO" ;;
  set_constraint trackToRight (set_target obj) ;;;
  set_constraint trackToRight (set_track_axis "TRACK_NEGATIVE_Z") ;;;
  set_constraint trackToRight (set_up_axis "UP_Y").

(** Lines 352-378, "Calc left position". *)
Definition calc_left (obj : option nat) (obj_position single_vector : Vec3)
    : M unit :=
  let singleleft_vector := single_vector in
  let singleleft_vector :=
    with_x (cos (radians (IZR (- leftangle self))) * vx single_vector +
            (- sin (radians (IZR (- leftangle self))) * vy single_vector))
           singleleft_vector in
  let singleleft_vector :=
    with_y (sin (radians (IZR (- leftangle self))) * vx single_vector +
            (cos (radians (IZR (- leftangle self))) * vy single_vector))
           singleleft_vector in
  let leftx := vx obj_position + distance self * vx singleleft_vector in
  let lefty := vy obj_position + distance self * vy singleleft_vector in
  leftData <- lights_new (SLightsNew Key) "TriLamp-Key" (primarytype self) ;;
  set_light leftData (set_energy keyEnergy) ;;;
  when (bool_decide (primarytype self = AREA))
    (set_light leftData (set_shape (key_light_shape self)) ;;;
     set_light leftData (set_size (key_light_size self))) ;;;
  when (bool_decide (primarytype self = SPOT))
    (set_light leftData (set_spot_size (radians (spot_size_key self))) ;;;
     set_light leftData (set_spot_blend (spot_blend_key self))) ;;;
  when (bool_decide (primarytype self = POINT)
        || bool_decide (primarytype self = SPOT))
    (set_light leftData (set_shadow_soft_size (shadow_soft_size_key self))) ;;;
  leftLamp <- objects_new (SObjectsNew Key) "TriLamp-Key" (OLight leftData) ;;
  link (SLink Key) leftLamp ;;;
  set_object leftLamp (set_location (mkVec3 leftx lefty (height self))) ;;;
  trackToLeft <- constraints_new (SConstraintsNew Key) leftLamp "TRACK_TO" ;;
  set_constraint trackToLeft (set_target obj) ;;;
  set_constraint trackToLeft (set_track_axis "TRACK_NEGATIVE_Z") ;;;
  set_constraint trackToLeft (set_up_axis "UP_Y").

(** The body of the [try] (lines 237-378) followed by line 389. *)
Definition execute_body : M Status :=
  camera <- find_camera ;;
  let obj := ctx_active ctx in
  obj_position <- location_of obj ;;
  cam_position <- location_of camera ;;
  let delta_position := vsub cam_position obj_position in
  let vector_length := vector_length_of delta_position in
  if Req_dec_T vector_length 0 then
    report "WARNING" msg_degenerate ;;;
    ret CANCELLED
  else
    let single_vector := vscale (1 / vector_length) delta_position in
    calc_back obj obj_position single_vector ;;;
    calc_right obj obj_position single_vector ;;;
    calc_left obj obj_position single_vector ;;;
    ret FINISHED.

(** Lines 380-387: the [except Exception as e] clause. *)
Definition execute_handler (e : string) : M Status :=
  report "WARNING" msg_exception ;;;
  print (console_text e) ;;;
  ret CANCELLED.

Definition execute : M Status := try_except execute_body execute_handler.

End Operator.

(** ** What the specification says, as definitions

    These follow the words of the specification, not the code; the
    theorems below compare them with [execute]. *)

(** "d = normalize(camera_pos - object_pos)". *)
Definition direction (object_pos camera_pos : Vec3) : Vec3 :=
  let d := vsub camera_pos object_pos in
  vscale (1 / sqrt (vx d ^ 2 + vy d ^ 2 + vz d ^ 2)) d.

(** "rx = cos(theta) dx - sin(theta) dy, ry = sin(theta) dx + cos(theta) dy",
    theta in degrees. *)
Definition rotate (theta : R) (d : R * R) : R * R :=
  (cos (radians theta) * fst d - sin (radians theta) * snd d,
   sin (radians theta) * fst d + cos (radians theta) * snd d).

(** "Position: object_pos.xy + distance (rx, ry), with z = configured height". *)
Definition placement (self : Props) (theta : R) (object_pos camera_pos : Vec3)
    : Vec3 :=
  let d := direction object_pos camera_pos in
  let r := rotate theta (vx d, vy d) in
  mkVec3 (vx object_pos + distance self * fst r)
         (vy object_pos + distance self * snd r)
         (height self).

(** The position the code computes for a light turned by [theta]: the
    specification's rotation applied to the x,y of [single_vector]. *)
Definition rotated_pos (self : Props) (theta : R) (obj_position single_vector : Vec3)
    : Vec3 :=
  mkVec3 (vx obj_position
          + distance self * fst (rotate theta (vx single_vector, vy single_vector)))
         (vy obj_position
          + distance self * snd (rotate theta (vx single_vector, vy single_vector)))
         (height self).

(** "Energy split". *)
Definition key_energy (E C : Z) : R :=
  if (0 <? C)%Z then IZR E else (IZR E / 100) * Rabs (IZR C).
Definition secondary_energy (E C : Z) : R :=
  if (0 <? C)%Z then (IZR E / 100) * Rabs (IZR C) else IZR E.

(** "Per-type parameter propagation": a light of kind [ty] with the
    parameters of one parameter set applied. *)
Definition configured (name : string) (ty : LightType) (e : R)
    (shape : LightShape) (size spot_size_deg spot_blend shadow : R) : LightData :=
  mkLightData name ty (Some e)
    (match ty with AREA => Some shape | _ => None end)
    (match ty with AREA => Some size | _ => None end)
    (match ty with SPOT => Some (radians spot_size_deg) | _ => None end)
    (match ty with SPOT => Some spot_blend | _ => None end)
    (match ty with POINT | SPOT => Some shadow | _ => None end).

(** "Orientation": a track-to constraint, local -Z toward the target,
    local +Y up. *)
Definition track_to (target : option nat) : Constraint :=
  mkConstraint "TRACK_TO" target (Some "TRACK_NEGATIVE_Z") (Some "UP_Y").

(** A placed light: the object of a light data block, at a position,
    aimed at the target. *)
Definition lamp (name : string) (data : nat) (pos : Vec3) (target : option nat)
    : Object :=
  mkObject name (OLight data) pos [track_to target].

(** The world with one more light: data block, object, link. *)
Definition add_light (d : LightData) (pos : Vec3) (target : option nat)
    (w : World) : World :=
  mkWorld (w_cameras w)
          (w_lights w ++ [d])
          (w_objects w ++ [lamp (l_name d) (length (w_lights w)) pos target])
          (w_collection w ++ [length (w_objects w)])
          (w_scene_camera w) (w_reports w) (w_console w).

Definition back_light (self : Props) : LightData :=
  configured "TriLamp-Back" (secondarytype self)
    (secondary_energy (energy self) (contrast self))
    (secondary_light_shape self) (secondary_light_size self)
    (spot_size_fill self) (spot_blend_fill self) (shadow_soft_size_fill self).
Definition fill_light (self : Props) : LightData :=
  configured "TriLamp-Fill" (secondarytype self)
    (secondary_energy (energy self) (contrast self))
    (secondary_light_shape self) (secondary_light_size self)
    (spot_size_fill self) (spot_blend_fill self) (shadow_soft_size_fill self).
Definition key_light (self : Props) : LightData :=
  configured "TriLamp-Key" (primarytype self)
    (key_energy (energy self) (contrast self))
    (key_light_shape self) (key_light_size self)
    (spot_size_key self) (spot_blend_key self) (shadow_soft_size_key self).

(** The light data blocks of an invocation, in the order of making. *)
Definition made_lights (self : Props) : list LightData :=
  [back_light self; fill_light self; key_light self].

(** The three lights, in the order the operator makes them. *)
Definition three_lights (ctx : Context) (self : Props)
    (object_pos camera_pos : Vec3) (w : World) : World :=
  let target := ctx_active ctx in
  add_light (key_light self)
    (placement self (IZR (- leftangle self)) object_pos camera_pos) target
    (add_light (fill_light self)
       (placement self (IZR (rightangle self)) object_pos camera_pos) target
       (add_light (back_light self)
          (placement self (IZR (backangle self)) object_pos camera_pos) target
          w)).

(** The world with a camera made at the viewpoint and set as the scene's. *)
Definition add_camera (ctx : Context) (w : World) : World :=
  mkWorld (w_cameras w ++ ["Camera"])
          (w_lights w)
          (w_objects w ++ [mkObject "Camera" (OCamera (length (w_cameras w)))
                                    (ctx_view_location ctx) []])
          (w_collection w ++ [length (w_objects w)])
          (Some (length (w_objects w))) (w_reports w) (w_console w).

(** The camera the operator finds (lines 240-243), if any. *)
Definition existing_camera (ctx : Context) (w : World) : option nat :=
  match ctx_space_data ctx with
  | Some view => if String.eqb (sd_type view) "VIEW_3D"
                 then sd_camera view else w_scene_camera w
  | None => None
  end.

(** The invocation gets as far as the geometry check (line 279): a camera
    is found or made, leaving the world [wc], and the active object and
    the camera have positions. *)
Definition reaches_check (ctx : Context) (w : World)
    (wc : World) (object_pos camera_pos : Vec3) : Prop :=
  exists camera,
    find_camera ctx w = (Ok camera, wc) /\
    location_of (ctx_active ctx) wc = (Ok object_pos, wc) /\
    location_of camera wc = (Ok camera_pos, wc).

Definition no_fault (ctx : Context) : Prop := forall s, ctx_fault ctx s = None.

(** The lights and objects of [w'] that [w] did not have. *)
Definition new_lights (w w' : World) : list LightData :=
  drop (length (w_lights w)) (w_lights w').
Definition new_objects (w w' : World) : list Object :=
  drop (length (w_objects w)) (w_objects w').
Definition is_lamp (o : Object) : bool :=
  match o_data o with OLight _ => true | _ => false end.
Definition new_lamps (w w' : World) : list Object :=
  List.filter is_lamp (new_objects w w').

(** Every constraint of every object. *)
Definition all_constraints (w : World) : list Constraint :=
  concat (map o_constraints (w_objects w)).

(** The scene: the world without the operator's reports and the console. *)
Definition scene (w : World) :=
  (w_cameras w, w_lights w, w_objects w, w_collection w, w_scene_camera w).

(** A computation leaves an observation [f] of the world as it was,
    whether it returns or raises. *)
Definition preserves {A X : Type} (f : World -> X) (m : M A) : Prop :=
  forall w r w', m w = (r, w') -> f w' = f w.

(** Distance in the horizontal plane. *)
Definition horizontal_offset (p q : Vec3) : R :=
  sqrt ((vx p - vx q) ^ 2 + (vy p - vy q) ^ 2).

(** The outcome is the cancellation of the geometry check: status
    [CANCELLED], and the last report is its warning. *)
Definition cancelled_degenerate (r : Outcome Status * World) : Prop :=
  fst r = Ok CANCELLED /\
  last (w_reports (snd r)) = Some ("WARNING", msg_degenerate).

(** The claim of all-or-nothing on degenerate geometry, as the
    specification words it: warning, [CANCELLED], and the scene as it was. *)
Definition degenerate_atomicity : Prop :=
  forall ctx self w wc p,
    reaches_check ctx w wc p p ->
    exists w',
      execute ctx self w = (Ok CANCELLED, w') /\
      last (w_reports w') = Some ("WARNING", msg_degenerate) /\
      scene w' = scene w.


(** ** Notions for the further properties *)

(** [w'] has all that [w] had, unchanged and at the same handles, and
    possibly more after it. *)
Definition only_adds (w w' : World) : Prop :=
  w_cameras w `prefix_of` w_cameras w' /\
  w_lights w `prefix_of` w_lights w' /\
  w_objects w `prefix_of` w_objects w' /\
  w_collection w `prefix_of` w_collection w' /\
  w_reports w `prefix_of` w_reports w' /\
  w_console w `prefix_of` w_console w'.

(** A computation started in a world that has all of [w0] ends, by
    return or by exception, in a world that has all of [w0]; a returned
    value satisfies [phi]. *)
Definition keeps {A : Type} (w0 : World) (m : M A) (phi : A -> Prop) : Prop :=
  forall w r w',
    only_adds w0 w -> m w = (r, w') ->
    only_adds w0 w' /\ (forall a, r = Ok a -> phi a).


(** How far, in the horizontal plane, [p] lies from [object_pos] in the
    direction of the camera (a dot product), and on which side of the
    line from the object to the camera (a cross product). *)
Definition toward_camera (p object_pos camera_pos : Vec3) : R :=
  (vx p - vx object_pos) * (vx camera_pos - vx object_pos) +
  (vy p - vy object_pos) * (vy camera_pos - vy object_pos).
Definition side_of_camera (p object_pos camera_pos : Vec3) : R :=
  (vx camera_pos - vx object_pos) * (vy p - vy object_pos) -
  (vy camera_pos - vy object_pos) * (vx p - vx object_pos).

(** The property fields of a panel. *)
Definition fields (ui : list UiCall) : list string :=
  omap (fun c => match c with ColProp name _ => Some name | _ => None end) ui.

(** The names of the properties, as declared (lines 42-168). *)
Definition declared_properties : list string :=
  [ "height"; "distance"; "energy"; "contrast"; "leftangle"; "rightangle";
    "backangle"; "primarytype"; "secondarytype"; "key_light_shape";
    "secondary_light_shape"; "key_light_size"; "secondary_light_size";
    "shadow_soft_size_key"; "shadow_soft_size_fill"; "spot_size_key";
    "spot_blend_key"; "spot_size_fill"; "spot_blend_fill" ].

(** The ways the body of the [try] can end, read off its control flow:
    by an exception of a step, by the early return of the geometry
    check, or by reaching the end. *)
Inductive body_ends (ctx : Context) (self : Props) (w : World)
    : Outcome Status -> World -> Prop :=
| ends_in_find_camera e w1 :
    find_camera ctx w = (Raise e, w1) ->
    body_ends ctx self w (Raise e) w1
| ends_at_object_location camera wc e :
    find_camera ctx w = (Ok camera, wc) ->
    location_of (ctx_active ctx) wc = (Raise e, wc) ->
    body_ends ctx self w (Raise e) wc
| ends_at_camera_location camera wc object_pos e :
    find_camera ctx w = (Ok camera, wc) ->
    location_of (ctx_active ctx) wc = (Ok object_pos, wc) ->
    location_of camera wc = (Raise e, wc) ->
    body_ends ctx self w (Raise e) wc
| ends_degenerate wc p :
    reaches_check ctx w wc p p ->
    body_ends ctx self w (Ok CANCELLED)
      (with_reports (fun l => l ++ [("WARNING", msg_degenerate)]) wc)
| ends_in_back wc object_pos camera_pos e w1 :
    reaches_check ctx w wc object_pos camera_pos ->
    camera_pos <> object_pos ->
    calc_back ctx self (ctx_active ctx) object_pos
      (direction object_pos camera_pos) wc = (Raise e, w1) ->
    body_ends ctx self w (Raise e) w1
| ends_in_fill wc object_pos camera_pos e w1 :
    reaches_check ctx w wc object_pos camera_pos ->
    camera_pos <> object_pos ->
    calc_right ctx self (ctx_active ctx) object_pos
      (direction object_pos camera_pos)
      (add_light (back_light self)
         (placement self (IZR (backangle self)) object_pos camera_pos)
         (ctx_active ctx) wc) = (Raise e, w1) ->
    body_ends ctx self w (Raise e) w1
| ends_in_key wc object_pos camera_pos e w1 :
    reaches_check ctx w wc object_pos camera_pos ->
    camera_pos <> object_pos ->
    calc_left ctx self (ctx_active ctx) object_pos
      (direction object_pos camera_pos)
      (add_light (fill_light self)
         (placement self (IZR (rightangle self)) object_pos camera_pos)
         (ctx_active ctx)
         (add_light (back_light self)
            (placement self (IZR (backangle self)) object_pos camera_pos)
            (ctx_active ctx) wc)) = (Raise e, w1) ->
    body_ends ctx self w (Raise e) w1
| ends_finished wc object_pos camera_pos :
    reaches_check ctx w wc object_pos camera_pos ->
    camera_pos <> object_pos ->
    body_ends ctx self w (Ok FINISHED)
      (three_lights ctx self object_pos camera_pos wc).


#[local] Instance string_eq_decision : EqDecision string := String.string_dec.

(** ** Invocations used as examples *)

Definition no_faults : Site -> option string := fun _ => None.

Definition cube : Object := mkObject "Cube" OOther origin [].
Definition camera_at (p : Vec3) : Object := mkObject "Camera" (OCamera 0) p [].

(** The end-to-end example of the specification: the object at the
    origin, the camera at (0,-5,0), the default properties. *)
Definition self0 : Props :=
  mkProps 5 5 3 50 26 45 235 AREA AREA SQUARE SQUARE
          0.25 0.25 0 0 45 0.15 45 0.15.
Definition w0 : World :=
  mkWorld ["Camera"] [] [cube; camera_at (mkVec3 0 (-5) 0)] [0; 1]%nat
          (Some 1%nat) [] [].
Definition ctx0 : Context :=
  mkContext (Some (mkSpaceData "VIEW_3D" (Some 1%nat))) (Some 0%nat)
            (mkVec3 7 (-7) 5) no_faults.

(** The same with a spot as key light. *)
Definition self_spot : Props :=
  mkProps 5 5 3 50 26 45 235 SPOT AREA SQUARE SQUARE
          0.25 0.25 0 0 45 0.15 45 0.15.

(** A scene without camera, seen from the very place of the object. *)
Definition w_nocam : World := mkWorld [] [] [cube] [0%nat] None [] [].
Definition ctx_nocam : Context :=
  mkContext (Some (mkSpaceData "VIEW_3D" None)) (Some 0%nat) origin no_faults.

(** The camera straight above the object. *)
Definition w_above : World :=
  mkWorld ["Camera"] [] [cube; camera_at (mkVec3 0 0 10)] [0; 1]%nat
          (Some 1%nat) [] [].

(** The host refuses to make the data block of the fill light. *)
Definition fill_light_fails : Site -> option string :=
  fun s => match s with
           | SLightsNew Fill => Some "RuntimeError: out of memory"
           | _ => None
           end.
Definition ctx_fail : Context :=
  mkContext (Some (mkSpaceData "VIEW_3D" (Some 1%nat))) (Some 0%nat)
            (mkVec3 7 (-7) 5) fill_light_fails.

(** Where the example invocations end. *)
Definition w0_finished (self : Props) : World :=
  three_lights ctx0 self origin (mkVec3 0 (-5) 0) w0.
Definition w0_failed : World :=
  with_console (fun l => l ++ [console_text "RuntimeError: out of memory"])
    (with_reports (fun l => l ++ [("WARNING", msg_exception)])
       (add_light (back_light self0)
          (placement self0 (IZR (backangle self0)) origin (mkVec3 0 (-5) 0))
          (Some 0%nat) w0)).

(** No editor at all (the operator is run in the background), and no
    active object. *)
Definition ctx_background : Context :=
  mkContext None (Some 0%nat) origin no_faults.

(** The camera twice as far, in the same direction. *)
Definition w_far : World :=
  mkWorld ["Camera"] [] [cube; camera_at (mkVec3 0 (-10) 0)] [0; 1]%nat
          (Some 1%nat) [] [].

(** The angles at the ends of their ranges: left 90, right 90, back 270. *)
Definition self_ends : Props :=
  mkProps 5 5 3 50 90 90 270 AREA AREA SQUARE SQUARE
          0.25 0.25 0 0 45 0.15 45 0.15.
(** ** Lemmas on the store *)

Lemma alter_last {A} (f : A -> A) (l : list A) (x : A) :
  alter f (length l) (l ++ [x]) = l ++ [f x].
Proof.
  replace (length l) with (length l + 0)%nat by lia.
  rewrite alter_app_r. reflexivity.
Qed.

Lemma lookup_last {A} (l : list A) (x : A) :
  (l ++ [x]) !! length l = Some x.
Proof. apply list_lookup_middle. reflexivity. Qed.

(** ** Running the monad *)

Lemma bind_Ok_inv {A B} (m : M A) (k : A -> M B) w b w' :
  bind m k w = (Ok b, w') ->
  exists a w1, m w = (Ok a, w1) /\ k a w1 = (Ok b, w').
Proof.
  unfold bind. destruct (m w) as [[a|e] w1]; [eauto | discriminate].
Qed.

Lemma host_call_Ok_inv ctx s w u w' :
  host_call ctx s w = (Ok u, w') -> ctx_fault ctx s = None.
Proof.
  unfold host_call. destruct (ctx_fault ctx s); [discriminate | reflexivity].
Qed.

Lemma location_of_inv ob w p w' :
  location_of ob w = (Ok p, w') ->
  w' = w /\ exists i o, ob = Some i /\ w_objects w !! i = Some o /\ o_location o = p.
Proof.
  unfold location_of. destruct ob as [i|]; [|discriminate].
  destruct (w_objects w !! i) as [o|] eqn:E; [|discriminate].
  intros [= <- <-]. eauto 6.
Qed.

Ltac invert_binds :=
  repeat match goal with
  | H : bind _ _ _ = (Ok _, _) |- _ =>
      let a := fresh "a" in let w1 := fresh "w" in let Hm := fresh "Hm" in
      apply bind_Ok_inv in H as (a & w1 & Hm & H)
  | H : host_call _ _ _ = (Ok _, _) |- _ => apply host_call_Ok_inv in H
  end.

(** ** The energies and the rotation of the code are the specification's *)

Lemma keyEnergy_eq self : keyEnergy self = key_energy (energy self) (contrast self).
Proof. unfold keyEnergy, key_energy. rewrite abs_IZR. reflexivity. Qed.

Lemma backEnergy_eq self :
  backEnergy self = secondary_energy (energy self) (contrast self).
Proof. unfold backEnergy, secondary_energy. rewrite abs_IZR. reflexivity. Qed.

Lemma fillEnergy_eq self :
  fillEnergy self = secondary_energy (energy self) (contrast self).
Proof. unfold fillEnergy, secondary_energy. rewrite abs_IZR. reflexivity. Qed.

Lemma plus_neg_mult (a b c : R) : a + - b * c = a - b * c.
Proof. ring. Qed.

(** ** The three blocks *)

Ltac step_store :=
  cbv beta iota delta [with_cameras with_lights with_objects with_collection
    with_scene_camera with_reports with_console with_constraints
    w_cameras w_lights w_objects w_collection w_scene_camera w_reports
    w_console];
  cbn -[alter lookup];
  rewrite ?alter_last, ?lookup_last.

Ltac run_block H1 H2 H3 H4 Ety :=
  unfold lights_new, objects_new, link, constraints_new, set_constraint,
    set_object, set_light, when, bind, host_call, get, modify, ret;
  rewrite H1; cbn [fst snd];
  repeat case_bool_decide; try congruence;
  cbn -[alter lookup];
  rewrite H2, H3, H4;
  repeat (progress step_store);
  unfold add_light, configured, lamp, track_to, rotated_pos, rotate;
  cbn; rewrite ?Ety.

Lemma calc_back_ok ctx self obj op sv w :
  ctx_fault ctx (SLightsNew Back) = None ->
  ctx_fault ctx (SObjectsNew Back) = None ->
  ctx_fault ctx (SLink Back) = None ->
  ctx_fault ctx (SConstraintsNew Back) = None ->
  calc_back ctx self obj op sv w =
  (Ok tt, add_light (back_light self)
            (rotated_pos self (IZR (backangle self)) op sv) obj w).
Proof.
  intros H1 H2 H3 H4. destruct w. unfold calc_back, back_light.
  destruct (secondarytype self) eqn:Ety; run_block H1 H2 H3 H4 Ety;
    rewrite backEnergy_eq; rewrite plus_neg_mult; reflexivity.
Qed.

Lemma calc_right_ok ctx self obj op sv w :
  ctx_fault ctx (SLightsNew Fill) = None ->
  ctx_fault ctx (SObjectsNew Fill) = None ->
  ctx_fault ctx (SLink Fill) = None ->
  ctx_fault ctx (SConstraintsNew Fill) = None ->
  calc_right ctx self obj op sv w =
  (Ok tt, add_light (fill_light self)
            (rotated_pos self (IZR (rightangle self)) op sv) obj w).
Proof.
  intros H1 H2 H3 H4. destruct w. unfold calc_right, fill_light.
  destruct (secondarytype self) eqn:Ety; run_block H1 H2 H3 H4 Ety;
    rewrite fillEnergy_eq; rewrite plus_neg_mult; reflexivity.
Qed.

Lemma calc_left_ok ctx self obj op sv w :
  ctx_fault ctx (SLightsNew Key) = None ->
  ctx_fault ctx (SObjectsNew Key) = None ->
  ctx_fault ctx (SLink Key) = None ->
  ctx_fault ctx (SConstraintsNew Key) = None ->
  calc_left ctx self obj op sv w =
  (Ok tt, add_light (key_light self)
            (rotated_pos self (IZR (- leftangle self)) op sv) obj w).
Proof.
  intros H1 H2 H3 H4. destruct w. unfold calc_left, key_light.
  destruct (primarytype self) eqn:Ety; run_block H1 H2 H3 H4 Ety;
    rewrite keyEnergy_eq; rewrite plus_neg_mult; reflexivity.
Qed.

Lemma calc_back_inv ctx self obj op sv w u w' :
  calc_back ctx self obj op sv w = (Ok u, w') ->
  w' = add_light (back_light self)
         (rotated_pos self (IZR (backangle self)) op sv) obj w.
Proof.
  intros H. pose proof H as H0.
  unfold calc_back, lights_new, objects_new, link, constraints_new in H0.
  invert_binds.
  rewrite calc_back_ok in H by assumption. congruence.
Qed.

Lemma calc_right_inv ctx self obj op sv w u w' :
  calc_right ctx self obj op sv w = (Ok u, w') ->
  w' = add_light (fill_light self)
         (rotated_pos self (IZR (rightangle self)) op sv) obj w.
Proof.
  intros H. pose proof H as H0.
  unfold calc_right, lights_new, objects_new, link, constraints_new in H0.
  invert_binds.
  rewrite calc_right_ok in H by assumption. congruence.
Qed.

Lemma calc_left_inv ctx self obj op sv w u w' :
  calc_left ctx self obj op sv w = (Ok u, w') ->
  w' = add_light (key_light self)
         (rotated_pos self (IZR (- leftangle self)) op sv) obj w.
Proof.
  intros H. pose proof H as H0.
  unfold calc_left, lights_new, objects_new, link, constraints_new in H0.
  invert_binds.
  rewrite calc_left_ok in H by assumption. congruence.
Qed.

(** ** The camera *)

Lemma find_camera_found ctx w c :
  is_Some (ctx_space_data ctx) ->
  existing_camera ctx w = Some c ->
  find_camera ctx w = (Ok (Some c), w).
Proof.
  unfold existing_camera, find_camera. intros [view ->] Hc.
  unfold bind, get, ret.
  destruct (String.eqb (sd_type view) "VIEW_3D"); rewrite Hc; reflexivity.
Qed.

Lemma find_camera_made ctx w :
  is_Some (ctx_space_data ctx) ->
  existing_camera ctx w = None ->
  ctx_fault ctx SCamerasNew = None ->
  ctx_fault ctx SCamObjectsNew = None ->
  ctx_fault ctx SCamLink = None ->
  ctx_fault ctx SCameraToView = None ->
  ctx_fault ctx SViewCamera = None ->
  find_camera ctx w = (Ok (Some (length (w_objects w))), add_camera ctx w).
Proof.
  unfold existing_camera, find_camera. intros [view ->] Hc H1 H2 H3 H4 H5.
  destruct w.
  unfold cameras_new, objects_new, link, camera_to_view, view_camera,
    bind, get, ret, modify, host_call.
  cbn [w_scene_camera] in Hc.
  destruct (String.eqb (sd_type view) "VIEW_3D"); rewrite Hc, H1;
    cbn -[alter lookup]; rewrite H2, H3, H4, H5;
    repeat (progress step_store); reflexivity.
Qed.

Lemma find_camera_inv ctx w camera wc :
  find_camera ctx w = (Ok camera, wc) ->
  (camera = existing_camera ctx w /\ is_Some camera /\ wc = w) \/
  (existing_camera ctx w = None /\ camera = Some (length (w_objects w)) /\
   wc = add_camera ctx w).
Proof.
  intros H.
  destruct (ctx_space_data ctx) as [view|] eqn:Ev;
    [| unfold find_camera in H; rewrite Ev in H; discriminate].
  destruct (existing_camera ctx w) as [c|] eqn:Ec.
  - left. rewrite (find_camera_found ctx w c) in H by (rewrite ?Ev; eauto).
    injection H as <- <-. eauto.
  - right. pose proof H as H0. pose proof Ec as Ec0.
    unfold find_camera, existing_camera in H0, Ec. rewrite Ev in H0, Ec.
    apply bind_Ok_inv in H0 as (cam & w1 & Hm & H0).
    assert (cam = None /\ w1 = w) as [-> ->].
    { destruct (String.eqb (sd_type view) "VIEW_3D");
        unfold get, ret in Hm; split; congruence. }
    unfold cameras_new, objects_new, link, camera_to_view, view_camera in H0.
    invert_binds.
    rewrite find_camera_made in H by (rewrite ?Ev; eauto).
    injection H as <- <-. auto.
Qed.

(** ** The geometry check *)

Lemma vector_length_zero (d : Vec3) :
  vector_length_of d = 0 <-> d = origin.
Proof.
  unfold vector_length_of, origin. destruct d as [x y z]; cbn. split.
  - intros H. apply sqrt_eq_0 in H; [| nra].
    assert (x = 0) by nra. assert (y = 0) by nra. assert (z = 0) by nra.
    congruence.
  - intros [= -> -> ->].
    match goal with |- sqrt ?e = 0 => replace e with 0 by ring end.
    apply sqrt_0.
Qed.

Lemma vsub_origin (a b : Vec3) : vsub a b = origin <-> a = b.
Proof.
  unfold vsub, origin. destruct a as [ax ay az], b as [bx b_y bz]; cbn. split.
  - intros [= Hx Hy Hz]. f_equal; lra.
  - intros [= -> -> ->]. f_equal; ring.
Qed.

Lemma degenerate_iff (object_pos camera_pos : Vec3) :
  vector_length_of (vsub camera_pos object_pos) = 0 <-> camera_pos = object_pos.
Proof. rewrite vector_length_zero. apply vsub_origin. Qed.

Lemma rotated_pos_placement self theta object_pos camera_pos :
  rotated_pos self theta object_pos
    (vscale (1 / vector_length_of (vsub camera_pos object_pos))
            (vsub camera_pos object_pos))
  = placement self theta object_pos camera_pos.
Proof. reflexivity. Qed.

(** ** [execute] as a whole *)

Lemma execute_degenerate ctx self w wc p :
  reaches_check ctx w wc p p ->
  execute ctx self w =
  (Ok CANCELLED, with_reports (fun l => l ++ [("WARNING", msg_degenerate)]) wc).
Proof.
  intros (camera & Hc & Ho & Hp).
  unfold execute, try_except, execute_body, bind. rewrite Hc, Ho, Hp.
  destruct (Req_dec_T _ 0) as [_ | Hne]; [reflexivity |].
  exfalso. apply Hne. apply degenerate_iff. reflexivity.
Qed.

Lemma execute_progress ctx self w wc object_pos camera_pos :
  no_fault ctx ->
  reaches_check ctx w wc object_pos camera_pos ->
  camera_pos <> object_pos ->
  execute ctx self w =
  (Ok FINISHED, three_lights ctx self object_pos camera_pos wc).
Proof.
  intros Hf (camera & Hc & Ho & Hp) Hne.
  unfold execute, try_except, execute_body, bind. rewrite Hc, Ho, Hp.
  destruct (Req_dec_T _ 0) as [Hz | _];
    [exfalso; apply Hne, degenerate_iff, Hz |].
  rewrite calc_back_ok, calc_right_ok, calc_left_ok by apply Hf.
  rewrite !rotated_pos_placement. reflexivity.
Qed.

Lemma execute_finished_inv ctx self w w' :
  execute ctx self w = (Ok FINISHED, w') ->
  exists wc object_pos camera_pos,
    reaches_check ctx w wc object_pos camera_pos /\
    camera_pos <> object_pos /\
    w' = three_lights ctx self object_pos camera_pos wc.
Proof.
  unfold execute, try_except.
  destruct (execute_body ctx self w) as [[s|e] w1] eqn:Hb;
    [| unfold execute_handler, bind, report, print, modify, ret; discriminate].
  intros [= -> ->]. unfold execute_body in Hb.
  apply bind_Ok_inv in Hb as (camera & wc & Hc & Hb).
  apply bind_Ok_inv in Hb as (op & w2 & Ho & Hb).
  destruct (location_of_inv _ _ _ _ Ho) as [-> _].
  apply bind_Ok_inv in Hb as (cp & w3 & Hp & Hb).
  destruct (location_of_inv _ _ _ _ Hp) as [-> _].
  destruct (Req_dec_T _ 0) as [Hz | Hnz];
    [unfold bind, report, modify, ret in Hb; discriminate |].
  apply bind_Ok_inv in Hb as (u1 & w4 & H1 & Hb).
  apply bind_Ok_inv in Hb as (u2 & w5 & H2 & Hb).
  apply bind_Ok_inv in Hb as (u3 & w6 & H3 & Hb).
  injection Hb as <-.
  apply calc_back_inv in H1. apply calc_right_inv in H2.
  apply calc_left_inv in H3. subst w4 w5 w6.
  exists wc, op, cp. split; [exists camera; auto |]. split.
  - intros Heq. apply Hnz. apply degenerate_iff, Heq.
  - rewrite !rotated_pos_placement. reflexivity.
Qed.

Lemma execute_caught ctx self w e w1 :
  execute_body ctx self w = (Raise e, w1) ->
  execute ctx self w =
  (Ok CANCELLED,
   with_console (fun l => l ++ [console_text e])
     (with_reports (fun l => l ++ [("WARNING", msg_exception)]) w1)).
Proof.
  intros H. unfold execute, try_except. rewrite H. reflexivity.
Qed.

(** ** The world after a finished invocation *)

Lemma three_lights_lights ctx self op cp wc :
  w_lights (three_lights ctx self op cp wc) =
  w_lights wc ++ [back_light self; fill_light self; key_light self].
Proof.
  unfold three_lights, add_light; cbn [w_lights].
  rewrite <- !app_assoc. reflexivity.
Qed.

Lemma three_lights_objects ctx self op cp wc :
  w_objects (three_lights ctx self op cp wc) =
  w_objects wc ++
  [lamp "TriLamp-Back" (length (w_lights wc))
        (placement self (IZR (backangle self)) op cp) (ctx_active ctx);
   lamp "TriLamp-Fill" (S (length (w_lights wc)))
        (placement self (IZR (rightangle self)) op cp) (ctx_active ctx);
   lamp "TriLamp-Key" (S (S (length (w_lights wc))))
        (placement self (IZR (- leftangle self)) op cp) (ctx_active ctx)].
Proof.
  unfold three_lights, add_light; cbn [w_objects w_lights].
  rewrite <- !app_assoc, !length_app. cbn [length app].
  replace (length (w_lights wc) + (1 + 1))%nat
    with (S (S (length (w_lights wc)))) by lia.
  replace (length (w_lights wc) + 1)%nat with (S (length (w_lights wc))) by lia.
  reflexivity.
Qed.

Lemma reaches_check_active ctx w wc op cp :
  reaches_check ctx w wc op cp ->
  exists i o, ctx_active ctx = Some i /\ w_objects wc !! i = Some o /\
              o_location o = op.
Proof.
  intros (camera & _ & Ho & _). apply location_of_inv in Ho as [_ Ho]. exact Ho.
Qed.

Lemma reaches_check_new_objects ctx w wc op cp :
  reaches_check ctx w wc op cp ->
  w_lights wc = w_lights w /\
  exists cams, w_objects wc = w_objects w ++ cams /\
               List.filter is_lamp cams = [] /\
               concat (map o_constraints cams) = [].
Proof.
  intros (camera & Hc & _ & _).
  apply find_camera_inv in Hc as [(_ & _ & ->) | (_ & _ & ->)].
  - split; [reflexivity |]. exists []. rewrite app_nil_r. auto.
  - split; [reflexivity |]. eexists. split; [reflexivity |]. auto.
Qed.

Lemma finished_shape ctx self w w' :
  execute ctx self w = (Ok FINISHED, w') ->
  exists wc object_pos camera_pos,
    reaches_check ctx w wc object_pos camera_pos /\
    camera_pos <> object_pos /\
    new_lights w w' = [back_light self; fill_light self; key_light self] /\
    new_lamps w w' =
      [lamp "TriLamp-Back" (length (w_lights w))
            (placement self (IZR (backangle self)) object_pos camera_pos)
            (ctx_active ctx);
       lamp "TriLamp-Fill" (S (length (w_lights w)))
            (placement self (IZR (rightangle self)) object_pos camera_pos)
            (ctx_active ctx);
       lamp "TriLamp-Key" (S (S (length (w_lights w))))
            (placement self (IZR (- leftangle self)) object_pos camera_pos)
            (ctx_active ctx)].
Proof.
  intros H. apply execute_finished_inv in H as (wc & op & cp & Hr & Hne & ->).
  exists wc, op, cp. split; [exact Hr |]. split; [exact Hne |].
  destruct (reaches_check_new_objects _ _ _ _ _ Hr) as (Hl & cams & Ho & Hf & _).
  unfold new_lights, new_lamps, new_objects.
  rewrite three_lights_lights, three_lights_objects, Hl, Ho.
  rewrite drop_app_length, <- app_assoc, drop_app_length.
  rewrite List.filter_app, Hf. split; reflexivity.
Qed.

(** ** The example invocations, run *)

Lemma reaches_check_found ctx w c op cp i o oc :
  is_Some (ctx_space_data ctx) ->
  existing_camera ctx w = Some c ->
  ctx_active ctx = Some i ->
  w_objects w !! i = Some o -> o_location o = op ->
  w_objects w !! c = Some oc -> o_location oc = cp ->
  reaches_check ctx w w op cp.
Proof.
  intros Hs Hc Ha Ho <- Hoc <-. exists (Some c).
  rewrite (find_camera_found ctx w c Hs Hc). unfold location_of.
  rewrite Ha, Ho, Hoc. auto.
Qed.

Lemma reaches_check_ctx0 :
  reaches_check ctx0 w0 w0 origin (mkVec3 0 (-5) 0).
Proof.
  eapply (reaches_check_found ctx0 w0 1%nat _ _ 0%nat); cbn; eauto.
Qed.

Lemma example_positions_differ : mkVec3 0 (-5) 0 <> origin.
Proof. unfold origin. intros [= H]. lra. Qed.

Lemma run_ctx0 (self : Props) :
  execute ctx0 self w0 =
  (Ok FINISHED, three_lights ctx0 self origin (mkVec3 0 (-5) 0) w0).
Proof.
  apply execute_progress.
  - intros s. reflexivity.
  - exact reaches_check_ctx0.
  - exact example_positions_differ.
Qed.

Lemma example_direction : direction origin (mkVec3 0 (-5) 0) = mkVec3 0 (-1) 0.
Proof.
  unfold direction, vsub, vscale, origin; cbn [vx vy vz].
  match goal with |- context [sqrt ?e] => replace e with (5 * 5) by ring end.
  rewrite sqrt_square by lra. f_equal; field.
Qed.

Lemma reaches_check_unique ctx w wc op cp wc' op' cp' :
  reaches_check ctx w wc op cp ->
  reaches_check ctx w wc' op' cp' ->
  wc' = wc /\ op' = op /\ cp' = cp.
Proof.
  intros (c & Hc & Ho & Hp) (c' & Hc' & Ho' & Hp').
  rewrite Hc in Hc'. injection Hc' as <- <-.
  rewrite Ho in Ho'. injection Ho' as <-.
  rewrite Hp in Hp'. injection Hp' as <-. auto.
Qed.

Lemma reaches_check_made ctx w i o :
  is_Some (ctx_space_data ctx) ->
  existing_camera ctx w = None ->
  no_fault ctx ->
  ctx_active ctx = Some i ->
  w_objects w !! i = Some o ->
  reaches_check ctx w (add_camera ctx w) (o_location o) (ctx_view_location ctx).
Proof.
  intros Hs Hc Hf Ha Ho. exists (Some (length (w_objects w))).
  rewrite (find_camera_made ctx w Hs Hc) by apply Hf.
  unfold location_of, add_camera; cbn [w_objects]. rewrite Ha.
  rewrite lookup_last, (lookup_app_l_Some _ _ _ _ Ho). auto.
Qed.

Lemma reaches_check_nocam :
  reaches_check ctx_nocam w_nocam (add_camera ctx_nocam w_nocam) origin origin.
Proof.
  apply (reaches_check_made ctx_nocam w_nocam 0%nat cube); cbn; eauto.
  intros s; reflexivity.
Qed.

Lemma reaches_check_scene ctx w wc op cp :
  reaches_check ctx w wc op cp ->
  w_reports wc = w_reports w /\ w_console wc = w_console w /\
  (is_Some (existing_camera ctx w) -> wc = w) /\
  (existing_camera ctx w = None -> wc = add_camera ctx w).
Proof.
  intros (camera & Hc & _ & _).
  apply find_camera_inv in Hc as [(-> & Hs & ->) | (Hn & _ & ->)].
  - repeat split; auto. intros Hn. rewrite Hn in Hs. destruct Hs; discriminate.
  - repeat split; auto. intros Hs. rewrite Hn in Hs. destruct Hs; discriminate.
Qed.

(** ** When the geometry check passes *)

Lemma execute_nondegenerate ctx self w wc object_pos camera_pos :
  reaches_check ctx w wc object_pos camera_pos ->
  camera_pos <> object_pos ->
  (exists w', execute_body ctx self w = (Ok FINISHED, w')) \/
  (exists e w1, execute_body ctx self w = (Raise e, w1)).
Proof.
  intros (camera & Hc & Ho & Hp) Hne.
  destruct (execute_body ctx self w) as [[s|e] w1] eqn:Hb; [left | right; eauto].
  unfold execute_body, bind at 1 2 3 in Hb. rewrite Hc, Ho, Hp in Hb.
  destruct (Req_dec_T _ 0) as [Hz | _];
    [exfalso; apply Hne, degenerate_iff, Hz |].
  invert_binds. injection Hb as <- <-. eauto.
Qed.

Lemma msg_differ : msg_exception <> msg_degenerate.
Proof. discriminate. Qed.

Lemma cancelled_degenerate_iff ctx self w wc object_pos camera_pos :
  reaches_check ctx w wc object_pos camera_pos ->
  cancelled_degenerate (execute ctx self w) <-> camera_pos = object_pos.
Proof.
  intros Hr. split.
  - intros [Hs Hl].
    destruct (Req_dec_T (vector_length_of (vsub camera_pos object_pos)) 0)
      as [Hz | Hnz]; [apply degenerate_iff, Hz |].
    exfalso.
    assert (Hne : camera_pos <> object_pos)
      by (intros Heq; apply Hnz, degenerate_iff, Heq).
    destruct (execute_nondegenerate ctx self _ _ _ _ Hr Hne)
      as [(w' & Hb) | (e & w1 & Hb)].
    + unfold execute, try_except in Hs. rewrite Hb in Hs. discriminate.
    + rewrite (execute_caught _ _ _ _ _ Hb) in Hl. cbn in Hl.
      rewrite last_snoc in Hl. apply msg_differ. congruence.
  - intros ->. rewrite (execute_degenerate _ _ _ _ _ Hr). split; [reflexivity |].
    cbn. apply last_snoc.
Qed.

(** ** Horizontal offsets *)

Lemma rotate_norm theta x y :
  fst (rotate theta (x, y)) ^ 2 + snd (rotate theta (x, y)) ^ 2 = x ^ 2 + y ^ 2.
Proof.
  unfold rotate; cbn [fst snd].
  pose proof (sin2_cos2 (radians theta)) as Hsc. unfold Rsqr in Hsc.
  set (c := cos (radians theta)) in *. set (s := sin (radians theta)) in *.
  replace ((c * x - s * y) ^ 2 + (s * x + c * y) ^ 2)
    with ((s * s + c * c) * (x ^ 2 + y ^ 2)) by ring.
  rewrite Hsc. ring.
Qed.

Lemma placement_offset self theta object_pos camera_pos :
  0 <= distance self ->
  let d := direction object_pos camera_pos in
  horizontal_offset (placement self theta object_pos camera_pos) object_pos
  = distance self * sqrt (vx d ^ 2 + vy d ^ 2).
Proof.
  intros Hd d. unfold horizontal_offset, placement. fold d. cbn [vx vy].
  set (r := rotate theta (vx d, vy d)).
  replace ((vx object_pos + distance self * fst r - vx object_pos) ^ 2 +
           (vy object_pos + distance self * snd r - vy object_pos) ^ 2)
    with (distance self * distance self * (fst r ^ 2 + snd r ^ 2)) by ring.
  unfold r. rewrite rotate_norm.
  rewrite sqrt_mult; [| nra | nra].
  rewrite sqrt_square by exact Hd. reflexivity.
Qed.

Lemma direction_xy object_pos camera_pos :
  camera_pos <> object_pos ->
  let d := direction object_pos camera_pos in
  0 <= vx d ^ 2 + vy d ^ 2 <= 1 /\
  (vz camera_pos <> vz object_pos -> vx d ^ 2 + vy d ^ 2 < 1).
Proof.
  intros Hne d. subst d. unfold direction.
  set (delta := vsub camera_pos object_pos).
  assert (Hn : delta <> origin) by (intros H; apply Hne, vsub_origin, H).
  set (N := vx delta ^ 2 + vy delta ^ 2 + vz delta ^ 2).
  assert (HN : 0 < N).
  { assert (0 <= N) by (unfold N; nra).
    destruct (Req_dec_T N 0) as [Hz | Hnz]; [| lra].
    exfalso. apply Hn. apply vector_length_zero. unfold vector_length_of.
    fold N. rewrite Hz. apply sqrt_0. }
  assert (HL : sqrt N * sqrt N = N) by (apply sqrt_sqrt; lra).
  assert (HLpos : 0 < sqrt N) by (apply sqrt_lt_R0; exact HN).
  cbn [vscale vx vy].
  assert (Heq : (1 / sqrt N * vx delta) ^ 2 + (1 / sqrt N * vy delta) ^ 2
                = (vx delta ^ 2 + vy delta ^ 2) / N).
  { rewrite <- HL at 3. field. lra. }
  rewrite Heq. split.
  - split.
    + apply Rmult_le_pos; [nra | left; apply Rinv_0_lt_compat, HN].
    + apply (Rmult_le_reg_r N); [exact HN |].
      unfold Rdiv. rewrite Rmult_assoc, Rinv_l by lra. unfold N. nra.
  - intros Hz.
    assert (Hdz : vz delta <> 0) by (unfold delta, vsub; cbn; lra).
    apply (Rmult_lt_reg_r N); [exact HN |].
    unfold Rdiv. rewrite Rmult_assoc, Rinv_l by lra. unfold N.
    assert (0 < vz delta ^ 2) by nra. nra.
Qed.

Lemma placement_within self theta object_pos camera_pos :
  0 < distance self ->
  camera_pos <> object_pos ->
  horizontal_offset (placement self theta object_pos camera_pos) object_pos
    <= distance self /\
  (vz camera_pos <> vz object_pos ->
   horizontal_offset (placement self theta object_pos camera_pos) object_pos
     < distance self).
Proof.
  intros Hd Hne. rewrite placement_offset by lra.
  destruct (direction_xy object_pos camera_pos Hne) as [[H0 H1] Hlt].
  split.
  - assert (sqrt (vx (direction object_pos camera_pos) ^ 2 +
                  vy (direction object_pos camera_pos) ^ 2) <= 1).
    { rewrite <- sqrt_1. apply sqrt_le_1; lra. }
    nra.
  - intros Hz. specialize (Hlt Hz).
    assert (sqrt (vx (direction object_pos camera_pos) ^ 2 +
                  vy (direction object_pos camera_pos) ^ 2) < 1).
    { rewrite <- sqrt_1. apply sqrt_lt_1; lra. }
    nra.
Qed.

Lemma placement_vertical self theta object_pos camera_pos :
  vx camera_pos = vx object_pos ->
  vy camera_pos = vy object_pos ->
  placement self theta object_pos camera_pos
  = mkVec3 (vx object_pos) (vy object_pos) (height self).
Proof.
  intros Hx Hy. unfold placement, direction, rotate, vscale, vsub.
  cbn [vx vy vz fst snd]. rewrite Hx, Hy. f_equal; ring.
Qed.

(** ** An invocation that fails half-way *)

Lemma execute_body_fill_fault ctx self w wc object_pos camera_pos e :
  reaches_check ctx w wc object_pos camera_pos ->
  camera_pos <> object_pos ->
  ctx_fault ctx (SLightsNew Back) = None ->
  ctx_fault ctx (SObjectsNew Back) = None ->
  ctx_fault ctx (SLink Back) = None ->
  ctx_fault ctx (SConstraintsNew Back) = None ->
  ctx_fault ctx (SLightsNew Fill) = Some e ->
  execute_body ctx self w =
  (Raise e,
   add_light (back_light self)
     (placement self (IZR (backangle self)) object_pos camera_pos)
     (ctx_active ctx) wc).
Proof.
  intros (camera & Hc & Ho & Hp) Hne H1 H2 H3 H4 H5.
  unfold execute_body, bind. rewrite Hc, Ho, Hp.
  destruct (Req_dec_T _ 0) as [Hz | _];
    [exfalso; apply Hne, degenerate_iff, Hz |].
  rewrite calc_back_ok by assumption.
  unfold calc_right, lights_new, bind, host_call. rewrite H5.
  rewrite rotated_pos_placement. reflexivity.
Qed.

Lemma reaches_check_ctx_fail :
  reaches_check ctx_fail w0 w0 origin (mkVec3 0 (-5) 0).
Proof.
  eapply (reaches_check_found ctx_fail w0 1%nat _ _ 0%nat); cbn; eauto.
Qed.

Lemma run_ctx_fail :
  execute_body ctx_fail self0 w0 =
  (Raise "RuntimeError: out of memory",
   add_light (back_light self0)
     (placement self0 (IZR (backangle self0)) origin (mkVec3 0 (-5) 0))
     (Some 0%nat) w0).
Proof.
  apply (execute_body_fill_fault ctx_fail self0 w0 w0 origin (mkVec3 0 (-5) 0));
    try reflexivity.
  - exact reaches_check_ctx_fail.
  - exact example_positions_differ.
Qed.

Lemma reaches_check_above :
  reaches_check ctx0 w_above w_above origin (mkVec3 0 0 10).
Proof.
  eapply (reaches_check_found ctx0 w_above 1%nat _ _ 0%nat); cbn; eauto.
Qed.

(** ** Every outcome: which lights exist *)

Lemma bind_outcome {A B} (m : M A) (k : A -> M B) w r w' :
  bind m k w = (r, w') ->
  (exists e, m w = (Raise e, w') /\ r = Raise e) \/
  (exists a w1, m w = (Ok a, w1) /\ k a w1 = (r, w')).
Proof.
  unfold bind. destruct (m w) as [[a|e] w1].
  - eauto.
  - intros [= <- <-]. eauto.
Qed.

Lemma preserves_ret {A X} (f : World -> X) (a : A) : preserves f (ret a).
Proof. intros w r w' [= <- <-]. reflexivity. Qed.

Lemma preserves_raise {A X} (f : World -> X) e : preserves f (@raise A e).
Proof. intros w r w' [= <- <-]. reflexivity. Qed.

Lemma preserves_get {A X} (f : World -> X) (g : World -> A) : preserves f (get g).
Proof. intros w r w' [= <- <-]. reflexivity. Qed.

Lemma preserves_modify {X} (f : World -> X) (g : World -> World) :
  (forall w, f (g w) = f w) -> preserves f (modify g).
Proof. intros Hg w r w' [= <- <-]. apply Hg. Qed.

Lemma preserves_host_call {X} (f : World -> X) ctx s :
  preserves f (host_call ctx s).
Proof.
  intros w r w'. unfold host_call.
  destruct (ctx_fault ctx s); intros [= <- <-]; reflexivity.
Qed.

Lemma preserves_bind {A B X} (f : World -> X) (m : M A) (k : A -> M B) :
  preserves f m -> (forall a, preserves f (k a)) -> preserves f (bind m k).
Proof.
  intros Hm Hk w r w' H.
  apply bind_outcome in H as [(e & H & _) | (a & w1 & H1 & H2)].
  - exact (Hm _ _ _ H).
  - rewrite (Hk _ _ _ _ H2). exact (Hm _ _ _ H1).
Qed.

Lemma preserves_location_of {X} (f : World -> X) ob :
  preserves f (location_of ob).
Proof.
  intros w r w'. unfold location_of. destruct ob as [i|].
  - destruct (w_objects w !! i); intros [= <- <-]; reflexivity.
  - intros [= <- <-]; reflexivity.
Qed.

Ltac preserves_steps :=
  repeat first
    [ apply preserves_ret | apply preserves_raise | apply preserves_get
    | apply preserves_host_call
    | apply preserves_modify; intros; reflexivity
    | apply preserves_bind; [| intros ] ].

Lemma preserves_lights_find_camera ctx : preserves w_lights (find_camera ctx).
Proof.
  unfold find_camera. destruct (ctx_space_data ctx) as [view|];
    [| apply preserves_raise].
  apply preserves_bind.
  - destruct (String.eqb _ _); preserves_steps.
  - intros [c|]; [apply preserves_ret |].
    unfold cameras_new, objects_new, link, camera_to_view, view_camera.
    preserves_steps.
    apply preserves_modify. intros w. destruct (w_scene_camera w); reflexivity.
Qed.

Lemma lights_new_outcome ctx s name ty w r w' :
  lights_new ctx s name ty w = (r, w') ->
  (exists e, r = Raise e /\ w' = w) \/
  (r = Ok (length (w_lights w)) /\
   w' = with_lights
          (fun l => l ++ [mkLightData name ty None None None None None None]) w).
Proof.
  unfold lights_new, bind, host_call, get, modify, ret.
  destruct (ctx_fault ctx s); intros [= <- <-]; eauto.
Qed.

Ltac preserves_rest :=
  unfold objects_new, link, set_object, constraints_new, set_constraint;
  preserves_steps.

Ltac run_lights H Hrest Ety :=
  unfold bind, when, set_light, modify in H;
  repeat case_bool_decide; try congruence;
  cbn [fst snd] in H;
  apply Hrest in H; rewrite H;
  repeat (progress step_store);
  unfold configured; rewrite ?Ety; reflexivity.

Lemma calc_back_lights ctx self obj op sv w r w' :
  calc_back ctx self obj op sv w = (r, w') ->
  w_lights w' = w_lights w \/ w_lights w' = w_lights w ++ [back_light self].
Proof.
  unfold calc_back. intros H. destruct w.
  apply bind_outcome in H as [(e & H & _) | (d & w1 & Hm & H)];
    apply lights_new_outcome in H || apply lights_new_outcome in Hm.
  - left. destruct H as [(e' & _ & ->) | [[=] _]]. reflexivity.
  - right. destruct Hm as [(e' & [=] & _) | ([= ->] & ->)].
    match type of H with
    | context [bind (objects_new ?a ?b ?c ?d) ?k] =>
        set (rest := bind (objects_new a b c d) k) in H
    end.
    assert (Hrest : preserves w_lights rest) by (subst rest; preserves_rest).
    unfold back_light. rewrite <- backEnergy_eq.
    destruct (secondarytype self) eqn:Ety; run_lights H Hrest Ety.
Qed.

Lemma calc_right_lights ctx self obj op sv w r w' :
  calc_right ctx self obj op sv w = (r, w') ->
  w_lights w' = w_lights w \/ w_lights w' = w_lights w ++ [fill_light self].
Proof.
  unfold calc_right. intros H. destruct w.
  apply bind_outcome in H as [(e & H & _) | (d & w1 & Hm & H)];
    apply lights_new_outcome in H || apply lights_new_outcome in Hm.
  - left. destruct H as [(e' & _ & ->) | [[=] _]]. reflexivity.
  - right. destruct Hm as [(e' & [=] & _) | ([= ->] & ->)].
    match type of H with
    | context [bind (objects_new ?a ?b ?c ?d) ?k] =>
        set (rest := bind (objects_new a b c d) k) in H
    end.
    assert (Hrest : preserves w_lights rest) by (subst rest; preserves_rest).
    unfold fill_light. rewrite <- fillEnergy_eq.
    destruct (secondarytype self) eqn:Ety; run_lights H Hrest Ety.
Qed.

Lemma calc_left_lights ctx self obj op sv w r w' :
  calc_left ctx self obj op sv w = (r, w') ->
  w_lights w' = w_lights w \/ w_lights w' = w_lights w ++ [key_light self].
Proof.
  unfold calc_left. intros H. destruct w.
  apply bind_outcome in H as [(e & H & _) | (d & w1 & Hm & H)];
    apply lights_new_outcome in H || apply lights_new_outcome in Hm.
  - left. destruct H as [(e' & _ & ->) | [[=] _]]. reflexivity.
  - right. destruct Hm as [(e' & [=] & _) | ([= ->] & ->)].
    match type of H with
    | context [bind (objects_new ?a ?b ?c ?d) ?k] =>
        set (rest := bind (objects_new a b c d) k) in H
    end.
    assert (Hrest : preserves w_lights rest) by (subst rest; preserves_rest).
    unfold key_light. rewrite <- keyEnergy_eq.
    destruct (primarytype self) eqn:Ety; run_lights H Hrest Ety.
Qed.

Ltac lights_shape :=
  cbn [w_lights add_light take]; rewrite <- ?app_assoc, ?app_nil_r; reflexivity.

Lemma execute_body_lights ctx self w r w' :
  execute_body ctx self w = (r, w') ->
  exists n, w_lights w' = w_lights w ++ take n (made_lights self).
Proof.
  unfold execute_body, made_lights. intros H.
  apply bind_outcome in H as [(e & H & _) | (camera & wc & Hc & H)].
  { exists 0%nat. rewrite (preserves_lights_find_camera _ _ _ _ H).
    symmetry; apply app_nil_r. }
  apply preserves_lights_find_camera in Hc. rewrite <- Hc.
  apply bind_outcome in H as [(e & H & _) | (op & w2 & Ho & H)].
  { exists 0%nat. rewrite (preserves_location_of w_lights _ _ _ _ H).
    symmetry; apply app_nil_r. }
  apply (preserves_location_of (fun x => x)) in Ho. subst w2.
  apply bind_outcome in H as [(e & H & _) | (cp & w3 & Hp & H)].
  { exists 0%nat. rewrite (preserves_location_of w_lights _ _ _ _ H).
    symmetry; apply app_nil_r. }
  apply (preserves_location_of (fun x => x)) in Hp. subst w3.
  destruct (Req_dec_T _ 0) as [_ | _].
  { exists 0%nat. unfold bind, report, modify, ret in H.
    injection H as _ <-. symmetry; apply app_nil_r. }
  apply bind_outcome in H as [(e & H & _) | (u1 & w4 & H1 & H)].
  { apply calc_back_lights in H as [-> | ->];
      [exists 0%nat | exists 1%nat]; lights_shape. }
  apply calc_back_inv in H1. subst w4.
  apply bind_outcome in H as [(e & H & _) | (u2 & w5 & H2 & H)].
  { apply calc_right_lights in H as [-> | ->];
      [exists 1%nat | exists 2%nat]; lights_shape. }
  apply calc_right_inv in H2. subst w5.
  apply bind_outcome in H as [(e & H & _) | (u3 & w6 & H3 & H)].
  { apply calc_left_lights in H as [-> | ->];
      [exists 2%nat | exists 3%nat]; lights_shape. }
  apply calc_left_inv in H3. subst w6. injection H as _ <-.
  exists 3%nat. lights_shape.
Qed.

Lemma execute_lights ctx self w r w' :
  execute ctx self w = (r, w') ->
  exists n, new_lights w w' = take n (made_lights self).
Proof.
  unfold execute, try_except, new_lights.
  destruct (execute_body ctx self w) as [[s|e] w1] eqn:Hb;
    apply execute_body_lights in Hb as [n Hn]; intros [= _ <-]; exists n.
  - rewrite Hn. apply drop_app_length.
  - cbn [w_lights with_console with_reports]. rewrite Hn. apply drop_app_length.
Qed.

Lemma made_lights_named self n d name :
  In d (take n (made_lights self)) -> l_name d = name ->
  (name = "TriLamp-Back" /\ d = back_light self) \/
  (name = "TriLamp-Fill" /\ d = fill_light self) \/
  (name = "TriLamp-Key" /\ d = key_light self).
Proof.
  intros Hin <-. apply list_elem_of_In, elem_of_take in Hin as (i & Hi & _).
  unfold made_lights in Hi.
  destruct i as [|[|[|i]]]; cbn in Hi; try discriminate;
    injection Hi as <-; auto.
Qed.

(** * The properties of the specification *)

(** C1 - Energy split.  After every finished invocation, whatever the
    base energy E and the contrast C (in particular for C in [-100,100]),
    the three new lights are the back, the fill and the key light; if
    C > 0 the key light's energy is E and the fill and back lights' is
    (E/100)*|C|, otherwise the key light's energy is (E/100)*|C| and the
    fill and back lights' is E. *)
Theorem energy_split ctx self w w' :
  execute ctx self w = (Ok FINISHED, w') ->
  exists back fill key,
    new_lights w w' = [back; fill; key] /\
    l_name back = "TriLamp-Back" /\ l_name fill = "TriLamp-Fill" /\
    l_name key = "TriLamp-Key" /\
    ((0 < contrast self)%Z ->
       l_energy key = Some (IZR (energy self)) /\
       l_energy fill = Some (IZR (energy self) / 100 * Rabs (IZR (contrast self))) /\
       l_energy back = Some (IZR (energy self) / 100 * Rabs (IZR (contrast self)))) /\
    ((contrast self <= 0)%Z ->
       l_energy key = Some (IZR (energy self) / 100 * Rabs (IZR (contrast self))) /\
       l_energy fill = Some (IZR (energy self)) /\
       l_energy back = Some (IZR (energy self))).
Proof.
  intros H. apply finished_shape in H as (_ & _ & _ & _ & _ & Hl & _).
  exists (back_light self), (fill_light self), (key_light self).
  split; [exact Hl |]. do 3 (split; [reflexivity |]).
  unfold back_light, fill_light, key_light, configured; cbn [l_energy].
  unfold key_energy, secondary_energy.
  split; intros HC.
  - apply Z.ltb_lt in HC. rewrite HC. auto.
  - apply Z.ltb_ge in HC. rewrite HC. auto.
Qed.

Lemma energy_split_witness :
  exists back fill key,
    new_lights w0 (three_lights ctx0 self0 origin (mkVec3 0 (-5) 0) w0)
      = [back; fill; key] /\
    l_name back = "TriLamp-Back" /\ l_name fill = "TriLamp-Fill" /\
    l_name key = "TriLamp-Key" /\
    ((0 < contrast self0)%Z ->
       l_energy key = Some (IZR (energy self0)) /\
       l_energy fill = Some (IZR (energy self0) / 100 * Rabs (IZR (contrast self0))) /\
       l_energy back = Some (IZR (energy self0) / 100 * Rabs (IZR (contrast self0)))) /\
    ((contrast self0 <= 0)%Z ->
       l_energy key = Some (IZR (energy self0) / 100 * Rabs (IZR (contrast self0))) /\
       l_energy fill = Some (IZR (energy self0)) /\
       l_energy back = Some (IZR (energy self0))).
Proof. exact (energy_split ctx0 self0 w0 _ (run_ctx0 self0)). Defined.

(** C3 - Position formula.  After every finished invocation the three
    new light objects are the back, fill and key lamps, each at
    (object.x + distance*rx, object.y + distance*ry, height), (rx, ry)
    being the rotation by backangle, rightangle and -leftangle of the
    x,y of the normalized direction from the object to the camera; the
    z of each is the configured height, whatever the z of the object and
    of the camera. *)
Theorem position_formula ctx self w w' :
  execute ctx self w = (Ok FINISHED, w') ->
  exists wc object_pos camera_pos back fill key,
    reaches_check ctx w wc object_pos camera_pos /\
    new_lamps w w' = [back; fill; key] /\
    let d := direction object_pos camera_pos in
    let at_angle theta :=
      mkVec3 (vx object_pos + distance self * fst (rotate theta (vx d, vy d)))
             (vy object_pos + distance self * snd (rotate theta (vx d, vy d)))
             (height self) in
    o_location back = at_angle (IZR (backangle self)) /\
    o_location fill = at_angle (IZR (rightangle self)) /\
    o_location key = at_angle (IZR (- leftangle self)) /\
    vz (o_location back) = height self /\
    vz (o_location fill) = height self /\
    vz (o_location key) = height self.
Proof.
  intros H. apply finished_shape in H as (wc & op & cp & Hr & _ & _ & Ho).
  exists wc, op, cp. do 3 eexists. split; [exact Hr |].
  split; [exact Ho |]. cbn. repeat split.
Qed.

Lemma position_formula_witness :
  exists wc object_pos camera_pos back fill key,
    reaches_check ctx0 w0 wc object_pos camera_pos /\
    new_lamps w0 (three_lights ctx0 self0 origin (mkVec3 0 (-5) 0) w0)
      = [back; fill; key] /\
    let d := direction object_pos camera_pos in
    let at_angle theta :=
      mkVec3 (vx object_pos + distance self0 * fst (rotate theta (vx d, vy d)))
             (vy object_pos + distance self0 * snd (rotate theta (vx d, vy d)))
             (height self0) in
    o_location back = at_angle (IZR (backangle self0)) /\
    o_location fill = at_angle (IZR (rightangle self0)) /\
    o_location key = at_angle (IZR (- leftangle self0)) /\
    vz (o_location back) = height self0 /\
    vz (o_location fill) = height self0 /\
    vz (o_location key) = height self0.
Proof. exact (position_formula ctx0 self0 w0 _ (run_ctx0 self0)). Defined.

(** C5 - Rotation round-trip.  For every vector (dx, dy) and every angle
    theta, the rotation rx = cos(theta)*dx - sin(theta)*dy,
    ry = sin(theta)*dx + cos(theta)*dy by theta and then by -theta gives
    (dx, dy) back, exactly, over the real numbers. *)
Theorem rotation_round_trip (theta dx dy : R) :
  rotate (- theta) (rotate theta (dx, dy)) = (dx, dy).
Proof.
  unfold rotate, radians; cbn [fst snd].
  replace (- theta * (PI / 180)) with (- (theta * (PI / 180))) by ring.
  rewrite cos_neg, sin_neg.
  pose proof (sin2_cos2 (theta * (PI / 180))) as Hsc. unfold Rsqr in Hsc.
  set (c := cos (theta * (PI / 180))) in *.
  set (s := sin (theta * (PI / 180))) in *.
  f_equal.
  - replace (c * (c * dx - s * dy) - - s * (s * dx + c * dy))
      with ((s * s + c * c) * dx) by ring.
    rewrite Hsc. ring.
  - replace (- s * (c * dx - s * dy) + c * (s * dx + c * dy))
      with ((s * s + c * c) * dy) by ring.
    rewrite Hsc. ring.
Qed.

(** C6 - SPOT key light.  In every invocation with the key type SPOT,
    however it ends, a key light that was made is a spot whose cone
    angle is the key spot size converted from degrees to radians and
    whose blend is the key blend, and its area-only attributes shape and
    size are not assigned.  A finished invocation has made one. *)
Theorem spot_key_light ctx self w r w' :
  primarytype self = SPOT ->
  execute ctx self w = (r, w') ->
  (r = Ok FINISHED ->
   exists back fill key,
     new_lights w w' = [back; fill; key] /\ l_name key = "TriLamp-Key") /\
  (forall key,
     In key (new_lights w w') -> l_name key = "TriLamp-Key" ->
     l_type key = SPOT /\
     l_spot_size key = Some (spot_size_key self * (PI / 180)) /\
     l_spot_blend key = Some (spot_blend_key self) /\
     l_shape key = None /\
     l_size key = None).
Proof.
  intros Ht H. split.
  - intros ->. apply finished_shape in H as (_ & _ & _ & _ & _ & Hl & _).
    rewrite Hl. eauto.
  - intros key Hin Hname. apply execute_lights in H as [n Hn].
    rewrite Hn in Hin.
    destruct (made_lights_named _ _ _ _ Hin Hname)
      as [[[=] _] | [[[=] _] | [_ ->]]].
    unfold key_light, configured. rewrite Ht. cbn. repeat split.
Qed.

Lemma spot_key_light_witness :
  (Ok FINISHED = Ok FINISHED ->
   exists back fill key,
     new_lights w0 (three_lights ctx0 self_spot origin (mkVec3 0 (-5) 0) w0)
       = [back; fill; key] /\ l_name key = "TriLamp-Key") /\
  (forall key,
     In key (new_lights w0
               (three_lights ctx0 self_spot origin (mkVec3 0 (-5) 0) w0)) ->
     l_name key = "TriLamp-Key" ->
     l_type key = SPOT /\
     l_spot_size key = Some (spot_size_key self_spot * (PI / 180)) /\
     l_spot_blend key = Some (spot_blend_key self_spot) /\
     l_shape key = None /\
     l_size key = None).
Proof.
  exact (spot_key_light ctx0 self_spot w0 _ _ eq_refl (run_ctx0 self_spot)).
Defined.

(** C4 - End-to-end example.  With the object at (0,0,0), the camera at
    (0,-5,0), distance 5, height 5, leftangle 26, rightangle 45,
    backangle 235, energy 3 and contrast 50, the operator finishes; the
    key light's energy is 3 and the fill and back lights' 1.5; the
    direction is (0,-1,0) and the key lamp stands at 5 times its rotation
    by -26 degrees, at height 5; the three lamps' track-to constraints
    aim at the object, which is at (0,0,0). *)
Theorem end_to_end_example :
  exists w',
    execute ctx0 self0 w0 = (Ok FINISHED, w') /\
    exists back fill key back_lamp fill_lamp key_lamp target,
      new_lights w0 w' = [back; fill; key] /\
      l_energy key = Some 3 /\
      l_energy fill = Some 1.5 /\
      l_energy back = Some 1.5 /\
      new_lamps w0 w' = [back_lamp; fill_lamp; key_lamp] /\
      direction origin (mkVec3 0 (-5) 0) = mkVec3 0 (-1) 0 /\
      o_location key_lamp =
        mkVec3 (0 + 5 * fst (rotate (-26) (0, -1)))
               (0 + 5 * snd (rotate (-26) (0, -1)))
               5 /\
      w_objects w' !! 0%nat = Some target /\
      o_location target = mkVec3 0 0 0 /\
      o_constraints back_lamp = [track_to (Some 0%nat)] /\
      o_constraints fill_lamp = [track_to (Some 0%nat)] /\
      o_constraints key_lamp = [track_to (Some 0%nat)].
Proof.
  eexists. split; [apply run_ctx0 |].
  do 6 eexists. exists cube.
  split; [reflexivity |].
  assert (He : IZR 3 / 100 * Rabs (IZR 50) = 1.5).
  { rewrite Rabs_pos_eq by lra. lra. }
  split; [reflexivity |].
  split; [cbn; f_equal; exact He |].
  split; [cbn; f_equal; exact He |].
  split; [reflexivity |].
  split; [exact example_direction |].
  split.
  { unfold lamp; cbn [o_location]. unfold placement.
    rewrite example_direction. reflexivity. }
  repeat split.
Qed.

(** C7 - Parameter-set sharing.  In every invocation, however it ends,
    the lights made are the first ones of: the back light, the fill
    light, the key light; a finished invocation has made all three.  The
    key light is configured from the key parameter set alone (key type,
    shape, size, spot size, spot blend, shadow soft size); the fill and
    the back light are both configured from the one secondary parameter
    set, so that they have the same type, shape, size, spot and shadow
    attributes. *)
Theorem parameter_sets ctx self w r w' :
  execute ctx self w = (r, w') ->
  let key := configured "TriLamp-Key" (primarytype self)
               (key_energy (energy self) (contrast self))
               (key_light_shape self) (key_light_size self)
               (spot_size_key self) (spot_blend_key self)
               (shadow_soft_size_key self) in
  let fill := configured "TriLamp-Fill" (secondarytype self)
                (secondary_energy (energy self) (contrast self))
                (secondary_light_shape self) (secondary_light_size self)
                (spot_size_fill self) (spot_blend_fill self)
                (shadow_soft_size_fill self) in
  let back := configured "TriLamp-Back" (secondarytype self)
                (secondary_energy (energy self) (contrast self))
                (secondary_light_shape self) (secondary_light_size self)
                (spot_size_fill self) (spot_blend_fill self)
                (shadow_soft_size_fill self) in
  (exists n, new_lights w w' = take n [back; fill; key]) /\
  (r = Ok FINISHED -> new_lights w w' = [back; fill; key]) /\
  l_type fill = l_type back /\
  l_shape fill = l_shape back /\
  l_size fill = l_size back /\
  l_spot_size fill = l_spot_size back /\
  l_spot_blend fill = l_spot_blend back /\
  l_shadow_soft_size fill = l_shadow_soft_size back.
Proof.
  intros H key fill back. split; [exact (execute_lights _ _ _ _ _ H) |].
  split; [| repeat split].
  intros ->. apply finished_shape in H as (_ & _ & _ & _ & _ & Hl & _).
  exact Hl.
Qed.

Lemma parameter_sets_witness :
  let key := configured "TriLamp-Key" (primarytype self_spot)
               (key_energy (energy self_spot) (contrast self_spot))
               (key_light_shape self_spot) (key_light_size self_spot)
               (spot_size_key self_spot) (spot_blend_key self_spot)
               (shadow_soft_size_key self_spot) in
  let fill := configured "TriLamp-Fill" (secondarytype self_spot)
                (secondary_energy (energy self_spot) (contrast self_spot))
                (secondary_light_shape self_spot) (secondary_light_size self_spot)
                (spot_size_fill self_spot) (spot_blend_fill self_spot)
                (shadow_soft_size_fill self_spot) in
  let back := configured "TriLamp-Back" (secondarytype self_spot)
                (secondary_energy (energy self_spot) (contrast self_spot))
                (secondary_light_shape self_spot) (secondary_light_size self_spot)
                (spot_size_fill self_spot) (spot_blend_fill self_spot)
                (shadow_soft_size_fill self_spot) in
  (exists n,
     new_lights w0 (three_lights ctx0 self_spot origin (mkVec3 0 (-5) 0) w0)
       = take n [back; fill; key]) /\
  (Ok FINISHED = Ok FINISHED ->
   new_lights w0 (three_lights ctx0 self_spot origin (mkVec3 0 (-5) 0) w0)
     = [back; fill; key]) /\
  l_type fill = l_type back /\
  l_shape fill = l_shape back /\
  l_size fill = l_size back /\
  l_spot_size fill = l_spot_size back /\
  l_spot_blend fill = l_spot_blend back /\
  l_shadow_soft_size fill = l_shadow_soft_size back.
Proof.
  exact (parameter_sets ctx0 self_spot w0 _ _ (run_ctx0 self_spot)).
Defined.

(** C8 - Output shape.  Every finished invocation has made exactly three
    lights (back, fill, key) and exactly three light objects, one for
    each; each object has one constraint, a track-to whose target is the
    active object, tracking along local -Z with local +Y up. *)
Theorem output_shape ctx self w w' :
  execute ctx self w = (Ok FINISHED, w') ->
  exists active back fill key back_lamp fill_lamp key_lamp,
    ctx_active ctx = Some active /\
    new_lights w w' = [back; fill; key] /\
    l_name back = "TriLamp-Back" /\ l_name fill = "TriLamp-Fill" /\
    l_name key = "TriLamp-Key" /\
    new_lamps w w' = [back_lamp; fill_lamp; key_lamp] /\
    o_data back_lamp = OLight (length (w_lights w)) /\
    o_data fill_lamp = OLight (length (w_lights w) + 1) /\
    o_data key_lamp = OLight (length (w_lights w) + 2) /\
    let aim := mkConstraint "TRACK_TO" (Some active)
                 (Some "TRACK_NEGATIVE_Z") (Some "UP_Y") in
    o_constraints back_lamp = [aim] /\
    o_constraints fill_lamp = [aim] /\
    o_constraints key_lamp = [aim].
Proof.
  intros H. apply finished_shape in H as (wc & op & cp & Hr & _ & Hl & Ho).
  destruct (reaches_check_active _ _ _ _ _ Hr) as (i & o & Ha & _ & _).
  exists i, (back_light self), (fill_light self), (key_light self).
  do 3 eexists. split; [exact Ha |]. split; [exact Hl |].
  do 3 (split; [reflexivity |]). split; [exact Ho |].
  unfold lamp, track_to; cbn [o_data o_constraints]. rewrite Ha.
  replace (length (w_lights w) + 1)%nat with (S (length (w_lights w))) by lia.
  replace (length (w_lights w) + 2)%nat with (S (S (length (w_lights w)))) by lia.
  repeat split.
Qed.

Lemma output_shape_witness :
  exists active back fill key back_lamp fill_lamp key_lamp,
    ctx_active ctx0 = Some active /\
    new_lights w0 (three_lights ctx0 self0 origin (mkVec3 0 (-5) 0) w0)
      = [back; fill; key] /\
    l_name back = "TriLamp-Back" /\ l_name fill = "TriLamp-Fill" /\
    l_name key = "TriLamp-Key" /\
    new_lamps w0 (three_lights ctx0 self0 origin (mkVec3 0 (-5) 0) w0)
      = [back_lamp; fill_lamp; key_lamp] /\
    o_data back_lamp = OLight (length (w_lights w0)) /\
    o_data fill_lamp = OLight (length (w_lights w0) + 1) /\
    o_data key_lamp = OLight (length (w_lights w0) + 2) /\
    let aim := mkConstraint "TRACK_TO" (Some active)
                 (Some "TRACK_NEGATIVE_Z") (Some "UP_Y") in
    o_constraints back_lamp = [aim] /\
    o_constraints fill_lamp = [aim] /\
    o_constraints key_lamp = [aim].
Proof. exact (output_shape ctx0 self0 w0 _ (run_ctx0 self0)). Defined.

(** C2 - Degenerate geometry, as claimed: warning, [CANCELLED] and no
    scene mutation at all.  This fails when the operator had to make the
    camera: in a scene without camera, seen from the place of the object,
    the invocation is cancelled by the geometry check and the scene has a
    new camera object. *)
Lemma degenerate_atomicity_fails :
  reaches_check ctx_nocam w_nocam (add_camera ctx_nocam w_nocam) origin origin /\
  (exists w',
     execute ctx_nocam self0 w_nocam = (Ok CANCELLED, w') /\
     w_objects w_nocam = [cube] /\
     w_objects w' = [cube; mkObject "Camera" (OCamera 0) origin []] /\
     w_scene_camera w_nocam = None /\
     w_scene_camera w' = Some 1%nat) /\
  ~ degenerate_atomicity.
Proof.
  pose proof (execute_degenerate ctx_nocam self0 _ _ _ reaches_check_nocam) as He.
  split; [exact reaches_check_nocam |]. split.
  - eexists. split; [exact He |]. repeat split.
  - intros Hclaim.
    destruct (Hclaim ctx_nocam self0 _ _ _ reaches_check_nocam)
      as (w' & Hw' & _ & Hs).
    rewrite He in Hw'. injection Hw' as <-. discriminate Hs.
Qed.

(** C2, amended - Degenerate geometry.  For every invocation in which
    the camera position equals the object position, the operation
    reports the warning, returns [CANCELLED], and makes no light, no
    light object and no constraint.  When a camera was found, the scene
    is as it was; when there was none, the scene is as it was but for
    the camera the operator made before the check. *)
Theorem degenerate_cancels ctx self w wc p :
  reaches_check ctx w wc p p ->
  exists w',
    execute ctx self w = (Ok CANCELLED, w') /\
    w_reports w' = w_reports w ++ [("WARNING", msg_degenerate)] /\
    w_console w' = w_console w /\
    w_lights w' = w_lights w /\
    new_lamps w w' = [] /\
    all_constraints w' = all_constraints w /\
    (is_Some (existing_camera ctx w) -> scene w' = scene w) /\
    (existing_camera ctx w = None -> scene w' = scene (add_camera ctx w)).
Proof.
  intros Hr. eexists. split; [exact (execute_degenerate _ self _ _ _ Hr) |].
  destruct (reaches_check_scene _ _ _ _ _ Hr) as (Hrep & Hcon & Hsome & Hnone).
  destruct (reaches_check_new_objects _ _ _ _ _ Hr)
    as (Hl & cams & Ho & Hf & Hc).
  cbn [w_reports w_console w_lights with_reports].
  rewrite Hrep, Hcon, Hl. do 3 (split; [reflexivity |]).
  split.
  { unfold new_lamps, new_objects; cbn [w_objects with_reports].
    rewrite Ho, drop_app_length. exact Hf. }
  split.
  { unfold all_constraints; cbn [w_objects with_reports].
    rewrite Ho, map_app, concat_app, Hc. apply app_nil_r. }
  split.
  - intros Hs. rewrite (Hsome Hs). reflexivity.
  - intros Hn. rewrite (Hnone Hn). reflexivity.
Qed.

Lemma degenerate_cancels_witness :
  reaches_check ctx_nocam w_nocam (add_camera ctx_nocam w_nocam) origin origin /\
  exists w',
    execute ctx_nocam self0 w_nocam = (Ok CANCELLED, w') /\
    w_reports w' = w_reports w_nocam ++ [("WARNING", msg_degenerate)] /\
    w_console w' = w_console w_nocam /\
    w_lights w' = w_lights w_nocam /\
    new_lamps w_nocam w' = [] /\
    all_constraints w' = all_constraints w_nocam /\
    (is_Some (existing_camera ctx_nocam w_nocam) -> scene w' = scene w_nocam) /\
    (existing_camera ctx_nocam w_nocam = None ->
     scene w' = scene (add_camera ctx_nocam w_nocam)).
Proof.
  split; [exact reaches_check_nocam |].
  exact (degenerate_cancels ctx_nocam self0 w_nocam _ origin reaches_check_nocam).
Defined.

(** C9 - Generic exceptions.  [execute] never lets an exception out.  An
    exception raised in the body is caught: the operator reports the
    warning, prints the error to the console and returns [CANCELLED];
    the scene stays as it was when the exception was raised, so what had
    been made until then is kept: some first ones of the three lights. *)
Theorem exceptions_caught ctx self w :
  (exists status w', execute ctx self w = (Ok status, w')) /\
  (forall e w1,
     execute_body ctx self w = (Raise e, w1) ->
     exists w',
       execute ctx self w = (Ok CANCELLED, w') /\
       w_reports w' = w_reports w1 ++ [("WARNING", msg_exception)] /\
       w_console w' = w_console w1 ++ [console_text e] /\
       (exists prefix, console_text e = String.append prefix e) /\
       scene w' = scene w1 /\
       (exists n, new_lights w w' = take n (made_lights self))).
Proof.
  split.
  - unfold execute, try_except.
    destruct (execute_body ctx self w) as [[s|e] w1]; eauto.
  - intros e w1 Hb. eexists. split; [exact (execute_caught _ _ _ _ _ Hb) |].
    do 2 (split; [reflexivity |]).
    split; [exists (console_text EmptyString); reflexivity |].
    split; [reflexivity |].
    exact (execute_lights _ _ _ _ _ (execute_caught _ _ _ _ _ Hb)).
Qed.

Lemma exceptions_caught_witness :
  execute_body ctx_fail self0 w0 =
    (Raise "RuntimeError: out of memory",
     add_light (back_light self0)
       (placement self0 (IZR (backangle self0)) origin (mkVec3 0 (-5) 0))
       (Some 0%nat) w0) /\
  exists w',
    execute ctx_fail self0 w0 = (Ok CANCELLED, w') /\
    w_reports w' = [("WARNING", msg_exception)] /\
    w_console w' = [console_text "RuntimeError: out of memory"] /\
    new_lights w0 w' = [back_light self0] /\
    length (new_lamps w0 w') = 1%nat.
Proof.
  split; [exact run_ctx_fail |].
  destruct (proj2 (exceptions_caught ctx_fail self0 w0) _ _ run_ctx_fail)
    as (w' & He & Hr & Hc & _ & Hs & _).
  exists w'. split; [exact He |]. split; [exact Hr |]. split; [exact Hc |].
  unfold new_lights, new_lamps, new_objects.
  injection Hs as _ Hl Ho _ _. rewrite Hl, Ho. split; reflexivity.
Defined.

(** C10 - Camera above or below the object.  Once the operator has its
    camera and the two positions: the geometry check cancels if and only
    if the 3D distance between camera and object is zero, that is, if and
    only if the two positions are equal.  A camera that differs from the
    object in z only does not cancel: when the host raises nothing the
    operator finishes, with the three lamps at (object.x, object.y,
    height).  In every finished invocation with the properties in their
    declared ranges (distance >= 0.1) each lamp's horizontal offset from
    the object is distance*sqrt(dx^2+dy^2), d the normalized direction;
    that is at most the distance, and less when the z of camera and
    object differ. *)
Theorem camera_above_or_below ctx self w wc object_pos camera_pos :
  reaches_check ctx w wc object_pos camera_pos ->
  props_in_range self ->
  (cancelled_degenerate (execute ctx self w) <->
   vector_length_of (vsub camera_pos object_pos) = 0) /\
  (vector_length_of (vsub camera_pos object_pos) = 0 <->
   camera_pos = object_pos) /\
  (no_fault ctx ->
   vx camera_pos = vx object_pos -> vy camera_pos = vy object_pos ->
   vz camera_pos <> vz object_pos ->
   exists w' back fill key,
     execute ctx self w = (Ok FINISHED, w') /\
     new_lamps w w' = [back; fill; key] /\
     o_location back = mkVec3 (vx object_pos) (vy object_pos) (height self) /\
     o_location fill = mkVec3 (vx object_pos) (vy object_pos) (height self) /\
     o_location key = mkVec3 (vx object_pos) (vy object_pos) (height self)) /\
  (forall w' o,
     execute ctx self w = (Ok FINISHED, w') ->
     In o (new_lamps w w') ->
     let d := direction object_pos camera_pos in
     horizontal_offset (o_location o) object_pos
       = distance self * sqrt (vx d ^ 2 + vy d ^ 2) /\
     horizontal_offset (o_location o) object_pos <= distance self /\
     (vz camera_pos <> vz object_pos ->
      horizontal_offset (o_location o) object_pos < distance self)).
Proof.
  intros Hr Hrange. pose proof (distance_min _ Hrange) as Hd.
  split; [| split; [| split]].
  - rewrite degenerate_iff. exact (cancelled_degenerate_iff ctx self _ _ _ _ Hr).
  - apply degenerate_iff.
  - intros Hf Hx Hy Hz.
    assert (Hne : camera_pos <> object_pos) by (intros ->; apply Hz; reflexivity).
    pose proof (execute_progress ctx self _ _ _ _ Hf Hr Hne) as He.
    destruct (finished_shape _ _ _ _ He) as (wc' & op & cp & Hr' & _ & _ & Ho).
    destruct (reaches_check_unique _ _ _ _ _ _ _ _ Hr Hr') as (-> & -> & ->).
    do 4 eexists. split; [exact He |]. split; [exact Ho |].
    unfold lamp; cbn [o_location].
    rewrite !placement_vertical by assumption. repeat split.
  - intros w' o He Hin d.
    destruct (finished_shape _ _ _ _ He) as (wc' & op & cp & Hr' & Hne & _ & Ho).
    destruct (reaches_check_unique _ _ _ _ _ _ _ _ Hr Hr') as (-> & -> & ->).
    rewrite Ho in Hin.
    assert (Hpos : exists theta,
               o_location o = placement self theta object_pos camera_pos).
    { cbn [In] in Hin.
      destruct Hin as [<- | [<- | [<- | []]]]; eexists; reflexivity. }
    destruct Hpos as [theta ->].
    split; [apply placement_offset; lra |].
    apply placement_within; [lra | exact Hne].
Qed.

Lemma camera_above_or_below_witness :
  reaches_check ctx0 w_above w_above origin (mkVec3 0 0 10) /\
  props_in_range self0 /\
  (cancelled_degenerate (execute ctx0 self0 w_above) <->
   vector_length_of (vsub (mkVec3 0 0 10) origin) = 0) /\
  (vector_length_of (vsub (mkVec3 0 0 10) origin) = 0 <->
   mkVec3 0 0 10 = origin) /\
  (no_fault ctx0 ->
   vx (mkVec3 0 0 10) = vx origin -> vy (mkVec3 0 0 10) = vy origin ->
   vz (mkVec3 0 0 10) <> vz origin ->
   exists w' back fill key,
     execute ctx0 self0 w_above = (Ok FINISHED, w') /\
     new_lamps w_above w' = [back; fill; key] /\
     o_location back = mkVec3 (vx origin) (vy origin) (height self0) /\
     o_location fill = mkVec3 (vx origin) (vy origin) (height self0) /\
     o_location key = mkVec3 (vx origin) (vy origin) (height self0)) /\
  (forall w' o,
     execute ctx0 self0 w_above = (Ok FINISHED, w') ->
     In o (new_lamps w_above w') ->
     let d := direction origin (mkVec3 0 0 10) in
     horizontal_offset (o_location o) origin
       = distance self0 * sqrt (vx d ^ 2 + vy d ^ 2) /\
     horizontal_offset (o_location o) origin <= distance self0 /\
     (vz (mkVec3 0 0 10) <> vz origin ->
      horizontal_offset (o_location o) origin < distance self0)).
Proof.
  assert (Hd : props_in_range self0) by (split; cbn; (lra || lia)).
  split; [exact reaches_check_above |]. split; [exact Hd |].
  exact (camera_above_or_below ctx0 self0 w_above w_above origin (mkVec3 0 0 10)
           reaches_check_above Hd).
Defined.

(** * Further properties of the operator *)

(** ** How the body ends *)

Lemma location_of_world ob w r0 w' :
  location_of ob w = (r0, w') -> w' = w.
Proof.
  unfold location_of. destruct ob as [i|].
  - destruct (w_objects w !! i); intros [= _ <-]; reflexivity.
  - intros [= _ <-]; reflexivity.
Qed.

Lemma execute_body_ends ctx self w r w1 :
  execute_body ctx self w = (r, w1) -> body_ends ctx self w r w1.
Proof.
  unfold execute_body. intros H.
  apply bind_outcome in H as [(e & H & ->) | (camera & wc & Hc & H)];
    [apply ends_in_find_camera; exact H |].
  apply bind_outcome in H as [(e & H & ->) | (op & w2 & Ho & H)].
  { pose proof (location_of_world _ _ _ _ H) as ->.
    eapply ends_at_object_location; eauto. }
  pose proof (location_of_world _ _ _ _ Ho) as ->.
  apply bind_outcome in H as [(e & H & ->) | (cp & w3 & Hp & H)].
  { pose proof (location_of_world _ _ _ _ H) as ->.
    eapply ends_at_camera_location; eauto. }
  pose proof (location_of_world _ _ _ _ Hp) as ->.
  assert (Hr : reaches_check ctx w wc op cp) by (exists camera; auto).
  destruct (Req_dec_T _ 0) as [Hz | Hnz].
  { apply degenerate_iff in Hz. subst cp.
    unfold bind, report, modify, ret in H. injection H as <- <-.
    apply (ends_degenerate _ _ _ _ op). exact Hr. }
  assert (Hne : cp <> op) by (intros Heq; apply Hnz, degenerate_iff, Heq).
  apply bind_outcome in H as [(e & H & ->) | (u1 & w4 & H1 & H)];
    [eapply ends_in_back; eauto |].
  apply calc_back_inv in H1. subst w4. rewrite rotated_pos_placement in H.
  apply bind_outcome in H as [(e & H & ->) | (u2 & w5 & H2 & H)];
    [eapply ends_in_fill; eauto |].
  apply calc_right_inv in H2. subst w5. rewrite rotated_pos_placement in H.
  apply bind_outcome in H as [(e & H & ->) | (u3 & w6 & H3 & H)];
    [eapply ends_in_key; eauto |].
  apply calc_left_inv in H3. subst w6. rewrite rotated_pos_placement in H.
  injection H as <- <-. apply ends_finished; assumption.
Qed.

Lemma execute_cases ctx self w r w' :
  execute ctx self w = (r, w') ->
  (exists s, r = Ok s /\ body_ends ctx self w (Ok s) w') \/
  (exists e w1,
     r = Ok CANCELLED /\ body_ends ctx self w (Raise e) w1 /\
     w' = with_console (fun l => l ++ [console_text e])
            (with_reports (fun l => l ++ [("WARNING", msg_exception)]) w1)).
Proof.
  unfold execute, try_except.
  destruct (execute_body ctx self w) as [[s|e] w1] eqn:Hb;
    apply execute_body_ends in Hb; intros [= <- <-]; [left | right]; eauto.
Qed.

(** ** What existed stays *)

Lemma only_adds_refl w : only_adds w w.
Proof. repeat split; reflexivity. Qed.

Lemma only_adds_trans w1 w2 w3 :
  only_adds w1 w2 -> only_adds w2 w3 -> only_adds w1 w3.
Proof.
  intros (H1 & H2 & H3 & H4 & H5 & H6) (K1 & K2 & K3 & K4 & K5 & K6).
  repeat split; etrans; eassumption.
Qed.

Lemma prefix_alter_ge {A} (f : A -> A) (l0 l : list A) i :
  l0 `prefix_of` l -> (length l0 <= i)%nat -> l0 `prefix_of` alter f i l.
Proof.
  intros [k ->] Hi. rewrite alter_app_r_alt by exact Hi.
  apply prefix_app_r. reflexivity.
Qed.

Lemma keeps_ret {A} w0 (a : A) (phi : A -> Prop) :
  phi a -> keeps w0 (ret a) phi.
Proof. intros Ha w r w' Hw [= <- <-]. split; [exact Hw |]. congruence. Qed.

Lemma keeps_bind {A B} w0 (m : M A) (k : A -> M B) phi psi :
  keeps w0 m phi ->
  (forall a, phi a -> keeps w0 (k a) psi) ->
  keeps w0 (bind m k) psi.
Proof.
  intros Hm Hk w r w' Hw H.
  apply bind_outcome in H as [(e & H & ->) | (a & w1 & H1 & H2)].
  - destruct (Hm _ _ _ Hw H) as [Hw' _]. split; [exact Hw' | discriminate].
  - destruct (Hm _ _ _ Hw H1) as [Hw1 Ha].
    exact (Hk a (Ha a eq_refl) _ _ _ Hw1 H2).
Qed.

Lemma keeps_any {A} w0 (m : M A) phi :
  keeps w0 m phi -> keeps w0 m (fun _ => True).
Proof. intros Hm w r w' Hw H. split; [apply (Hm _ _ _ Hw H) | auto]. Qed.

Lemma keeps_when w0 b (m : M unit) phi :
  keeps w0 m phi -> keeps w0 (when b m) (fun _ => True).
Proof.
  intros Hm. destruct b; [exact (keeps_any _ _ _ Hm) |].
  apply keeps_ret. exact I.
Qed.

Lemma keeps_host_call w0 ctx s : keeps w0 (host_call ctx s) (fun _ => True).
Proof.
  intros w r w' Hw. unfold host_call.
  destruct (ctx_fault ctx s); intros [= <- <-]; auto.
Qed.

Lemma keeps_modify w0 (g : World -> World) :
  (forall w, only_adds w0 w -> only_adds w0 (g w)) ->
  keeps w0 (modify g) (fun _ => True).
Proof. intros Hg w r w' Hw [= <- <-]. auto. Qed.

Lemma keeps_lights_new w0 ctx s name ty :
  keeps w0 (lights_new ctx s name ty)
        (fun a => (length (w_lights w0) <= a)%nat).
Proof.
  intros w r w' Hw. pose proof Hw as (Hc & Hl & Ho & Hk & Hr & Hs).
  unfold lights_new, bind, host_call, get, modify, ret.
  destruct (ctx_fault ctx s); intros [= <- <-].
  - split; [exact Hw | discriminate].
  - split.
    + repeat split; cbn; auto using prefix_app_r.
    + intros a [= <-]. apply prefix_length, Hl.
Qed.

Lemma keeps_objects_new w0 ctx s name data :
  keeps w0 (objects_new ctx s name data)
        (fun a => (length (w_objects w0) <= a)%nat).
Proof.
  intros w r w' Hw. pose proof Hw as (Hc & Hl & Ho & Hk & Hr & Hs).
  unfold objects_new, bind, host_call, get, modify, ret.
  destruct (ctx_fault ctx s); intros [= <- <-].
  - split; [exact Hw | discriminate].
  - split.
    + repeat split; cbn; auto using prefix_app_r.
    + intros a [= <-]. apply prefix_length, Ho.
Qed.

Lemma keeps_link w0 ctx s ob : keeps w0 (link ctx s ob) (fun _ => True).
Proof.
  intros w r w' Hw. pose proof Hw as (Hc & Hl & Ho & Hk & Hr & Hs).
  unfold link, bind, host_call, modify.
  destruct (ctx_fault ctx s); intros [= <- <-]; [auto |].
  split; [| auto]. repeat split; cbn; auto using prefix_app_r.
Qed.

Lemma keeps_set_light w0 i f :
  (length (w_lights w0) <= i)%nat -> keeps w0 (set_light i f) (fun _ => True).
Proof.
  intros Hi. apply keeps_modify. intros w (Hc & Hl & Ho & Hk & Hr & Hs).
  repeat split; cbn; auto using prefix_alter_ge.
Qed.

Lemma keeps_set_object w0 i f :
  (length (w_objects w0) <= i)%nat -> keeps w0 (set_object i f) (fun _ => True).
Proof.
  intros Hi. apply keeps_modify. intros w (Hc & Hl & Ho & Hk & Hr & Hs).
  repeat split; cbn; auto using prefix_alter_ge.
Qed.

Lemma keeps_constraints_new w0 ctx s ob ty :
  (length (w_objects w0) <= ob)%nat ->
  keeps w0 (constraints_new ctx s ob ty)
        (fun h => (length (w_objects w0) <= fst h)%nat).
Proof.
  intros Hi. unfold constraints_new.
  eapply keeps_bind; [apply keeps_host_call | intros _ _].
  intros w r w' Hw. unfold bind, get, set_object, modify, ret.
  intros [= <- <-]. split.
  - destruct Hw as (Hc & Hl & Ho & Hk & Hr & Hs).
    repeat split; cbn; auto using prefix_alter_ge.
  - intros a [= <-]. exact Hi.
Qed.

Lemma keeps_set_constraint w0 h f :
  (length (w_objects w0) <= fst h)%nat ->
  keeps w0 (set_constraint h f) (fun _ => True).
Proof. intros Hi. apply keeps_set_object. exact Hi. Qed.

Ltac keeps_steps :=
  repeat first
    [ eapply keeps_bind;
      [ first [ apply keeps_lights_new
              | apply keeps_objects_new
              | apply keeps_link
              | apply keeps_set_light; assumption
              | apply keeps_set_object; assumption
              | apply keeps_constraints_new; assumption
              | apply keeps_set_constraint; assumption
              | eapply keeps_when ]
      | intros ? ? ]
    | apply keeps_set_light; assumption
    | apply keeps_set_constraint; assumption ].

Lemma keeps_calc_back w0 ctx self obj op sv :
  keeps w0 (calc_back ctx self obj op sv) (fun _ => True).
Proof. unfold calc_back. keeps_steps. Qed.

Lemma keeps_calc_right w0 ctx self obj op sv :
  keeps w0 (calc_right ctx self obj op sv) (fun _ => True).
Proof. unfold calc_right. keeps_steps. Qed.

Lemma keeps_calc_left w0 ctx self obj op sv :
  keeps w0 (calc_left ctx self obj op sv) (fun _ => True).
Proof. unfold calc_left. keeps_steps. Qed.

Lemma find_camera_only_adds ctx w r w' :
  find_camera ctx w = (r, w') -> only_adds w w'.
Proof.
  unfold find_camera. destruct (ctx_space_data ctx) as [view|];
    [| intros [= <- <-]; apply only_adds_refl].
  intros H. apply bind_outcome in H as [(e & H & _) | (camera & w1 & Hc & H)].
  { destruct (String.eqb _ _); discriminate H. }
  assert (w1 = w) as ->
    by (destruct (String.eqb _ _); unfold get, ret in Hc; congruence).
  destruct camera as [c|]; [injection H as <- <-; apply only_adds_refl |].
  destruct w.
  unfold cameras_new, objects_new, link, camera_to_view, view_camera,
    bind, host_call, get, modify, ret in H.
  repeat match type of H with
         | context [ctx_fault ctx ?s] => destruct (ctx_fault ctx s)
         end;
    cbn -[alter lookup] in H; injection H as <- <-;
    repeat split; cbn -[alter prefix]; rewrite ?alter_last;
    first [reflexivity | apply prefix_app_r; reflexivity].
Qed.

Lemma body_ends_only_adds ctx self w r w1 :
  body_ends ctx self w r w1 -> only_adds w w1.
Proof.
  assert (Hreach : forall wc op cp, reaches_check ctx w wc op cp -> only_adds w wc).
  { intros wc op cp (camera & Hc & _). exact (find_camera_only_adds _ _ _ _ Hc). }
  assert (Hadd : forall w0 d pos t, only_adds w0 (add_light d pos t w0)).
  { intros w0 d pos t.
    repeat split; cbn; first [reflexivity | apply prefix_app_r; reflexivity]. }
  intros [ e w' H | camera wc e H _ | camera wc p e H _ _ | wc p Hr
         | wc op cp e w' Hr _ H | wc op cp e w' Hr _ H | wc op cp e w' Hr _ H
         | wc op cp Hr _ ].
  - exact (find_camera_only_adds _ _ _ _ H).
  - exact (find_camera_only_adds _ _ _ _ H).
  - exact (find_camera_only_adds _ _ _ _ H).
  - apply (only_adds_trans _ wc); [eauto |].
    repeat split; cbn; first [reflexivity | apply prefix_app_r; reflexivity].
  - apply (only_adds_trans _ wc); [eauto |].
    exact (proj1 (keeps_calc_back _ _ _ _ _ _ _ _ _ (only_adds_refl _) H)).
  - apply (only_adds_trans _ wc); [eauto |].
    eapply only_adds_trans; [apply Hadd |].
    exact (proj1 (keeps_calc_right _ _ _ _ _ _ _ _ _ (only_adds_refl _) H)).
  - apply (only_adds_trans _ wc); [eauto |].
    eapply only_adds_trans; [apply Hadd |].
    eapply only_adds_trans; [apply Hadd |].
    exact (proj1 (keeps_calc_left _ _ _ _ _ _ _ _ _ (only_adds_refl _) H)).
  - apply (only_adds_trans _ wc); [eauto |]. unfold three_lights.
    eapply only_adds_trans; [apply Hadd |].
    eapply only_adds_trans; [apply Hadd |]. apply Hadd.
Qed.

(** X1 - Whatever the outcome, the operator only adds: every camera
    data block, light, object (with its location and constraints) and
    collection link that existed is still there, unchanged and under the
    same handle, and the reports and the console keep their lines. *)
Theorem existing_entities_kept ctx self w r w' :
  execute ctx self w = (r, w') ->
  only_adds w w' /\
  (forall i o, w_objects w !! i = Some o -> w_objects w' !! i = Some o) /\
  (forall i d, w_lights w !! i = Some d -> w_lights w' !! i = Some d) /\
  (forall i ob, w_collection w !! i = Some ob -> w_collection w' !! i = Some ob).
Proof.
  intros H.
  assert (Ha : only_adds w w').
  { apply execute_cases in H as [(s & _ & Hb) | (e & w1 & _ & Hb & ->)];
      apply body_ends_only_adds in Hb; [exact Hb |].
    destruct Hb as (Hc & Hl & Ho & Hk & Hr & Hs).
    repeat split; cbn; auto using prefix_app_r. }
  split; [exact Ha |]. destruct Ha as (Hc & Hl & Ho & Hk & Hr & Hs).
  repeat split; intros i x Hx; eapply prefix_lookup_Some; eauto.
Qed.

Lemma run_ctx0_finished (self : Props) :
  execute ctx0 self w0 = (Ok FINISHED, w0_finished self).
Proof. apply run_ctx0. Qed.

Lemma run_ctx_fail_cancelled :
  execute ctx_fail self0 w0 = (Ok CANCELLED, w0_failed).
Proof. exact (execute_caught _ _ _ _ _ run_ctx_fail). Qed.

Lemma existing_entities_kept_witness :
  only_adds w0 w0_failed /\
  (forall i o, w_objects w0 !! i = Some o -> w_objects w0_failed !! i = Some o) /\
  (forall i d, w_lights w0 !! i = Some d -> w_lights w0_failed !! i = Some d) /\
  (forall i ob, w_collection w0 !! i = Some ob ->
     w_collection w0_failed !! i = Some ob).
Proof.
  exact (existing_entities_kept ctx_fail self0 w0 _ _ run_ctx_fail_cancelled).
Defined.

(** ** Reports, console, cameras: who writes what *)

Lemma preserves_when {X} (f : World -> X) b (m : M unit) :
  preserves f m -> preserves f (when b m).
Proof. intros Hm. destruct b; [exact Hm | apply preserves_ret]. Qed.

Ltac preserves_ops :=
  unfold cameras_new, objects_new, link, camera_to_view, view_camera,
    lights_new, set_constraint, constraints_new, set_light, set_object,
    report, print;
  repeat first
    [ apply preserves_ret | apply preserves_raise | apply preserves_get
    | apply preserves_host_call
    | apply preserves_when
    | apply preserves_modify;
      let w := fresh "w" in
      intros w; first [reflexivity | destruct (w_scene_camera w); reflexivity]
    | apply preserves_bind; [| intros ] ].

(** The blocks write neither reports nor console, and leave the cameras
    and the scene's camera alone. *)
Lemma preserves_calc_back ctx self obj op sv :
  preserves (fun w => (w_cameras w, w_scene_camera w, w_reports w, w_console w))
    (calc_back ctx self obj op sv).
Proof. unfold calc_back. preserves_ops. Qed.

Lemma preserves_calc_right ctx self obj op sv :
  preserves (fun w => (w_cameras w, w_scene_camera w, w_reports w, w_console w))
    (calc_right ctx self obj op sv).
Proof. unfold calc_right. preserves_ops. Qed.

Lemma preserves_calc_left ctx self obj op sv :
  preserves (fun w => (w_cameras w, w_scene_camera w, w_reports w, w_console w))
    (calc_left ctx self obj op sv).
Proof. unfold calc_left. preserves_ops. Qed.

Lemma preserves_logs_find_camera ctx :
  preserves (fun w => (w_reports w, w_console w)) (find_camera ctx).
Proof.
  unfold find_camera. destruct (ctx_space_data ctx) as [view|];
    [| apply preserves_raise].
  apply preserves_bind.
  - destruct (String.eqb _ _); preserves_ops.
  - intros [c|]; preserves_ops.
Qed.

Lemma reaches_check_logs ctx w wc op cp :
  reaches_check ctx w wc op cp ->
  w_reports wc = w_reports w /\ w_console wc = w_console w.
Proof.
  intros (camera & Hc & _). apply preserves_logs_find_camera in Hc.
  injection Hc as -> ->. auto.
Qed.

(** After the camera, the body only adds, and changes the cameras and
    the scene's camera no more. *)
Lemma body_ends_cameras ctx self w r w1 :
  body_ends ctx self w r w1 ->
  (exists e, find_camera ctx w = (Raise e, w1)) \/
  (exists camera wc,
     find_camera ctx w = (Ok camera, wc) /\
     only_adds wc w1 /\
     w_cameras w1 = w_cameras wc /\ w_scene_camera w1 = w_scene_camera wc).
Proof.
  assert (Hadd : forall w0 d pos t, only_adds w0 (add_light d pos t w0)).
  { intros w0 d pos t.
    repeat split; cbn; first [reflexivity | apply prefix_app_r; reflexivity]. }
  intros [ e w' H | camera wc e H _ | camera wc p e H _ _
         | wc p (camera & H & _)
         | wc op cp e w' (camera & H & _) _ Hb
         | wc op cp e w' (camera & H & _) _ Hb
         | wc op cp e w' (camera & H & _) _ Hb
         | wc op cp (camera & H & _) _ ];
    [left; eauto | right; exists camera, wc; split; [exact H |] ..].
  - auto using only_adds_refl.
  - auto using only_adds_refl.
  - split; [| auto].
    repeat split; cbn; first [reflexivity | apply prefix_app_r; reflexivity].
  - split.
    + exact (proj1 (keeps_calc_back _ _ _ _ _ _ _ _ _ (only_adds_refl _) Hb)).
    + apply preserves_calc_back in Hb. injection Hb as -> -> _ _. auto.
  - split.
    + eapply only_adds_trans; [apply Hadd |].
      exact (proj1 (keeps_calc_right _ _ _ _ _ _ _ _ _ (only_adds_refl _) Hb)).
    + apply preserves_calc_right in Hb. injection Hb as -> -> _ _. auto.
  - split.
    + eapply only_adds_trans; [apply Hadd |].
      eapply only_adds_trans; [apply Hadd |].
      exact (proj1 (keeps_calc_left _ _ _ _ _ _ _ _ _ (only_adds_refl _) Hb)).
    + apply preserves_calc_left in Hb. injection Hb as -> -> _ _. auto.
  - split; [| auto]. unfold three_lights.
    eapply only_adds_trans; [apply Hadd |].
    eapply only_adds_trans; [apply Hadd |]. apply Hadd.
Qed.

Lemma body_ends_logs ctx self w r w1 :
  body_ends ctx self w r w1 ->
  match r with
  | Ok CANCELLED =>
      w_reports w1 = w_reports w ++ [("WARNING", msg_degenerate)] /\
      w_console w1 = w_console w
  | _ => w_reports w1 = w_reports w /\ w_console w1 = w_console w
  end.
Proof.
  assert (Hfc : forall r0 wc, find_camera ctx w = (r0, wc) ->
                  w_reports wc = w_reports w /\ w_console wc = w_console w).
  { intros r0 wc Hc. apply preserves_logs_find_camera in Hc.
    injection Hc as -> ->. auto. }
  intros [ e w' H | camera wc e H _ | camera wc p e H _ _ | wc p Hr
         | wc op cp e w' Hr _ Hb | wc op cp e w' Hr _ Hb
         | wc op cp e w' Hr _ Hb | wc op cp Hr _ ];
    eauto;
    try (apply reaches_check_logs in Hr as [<- <-]).
  - split; reflexivity.
  - apply preserves_calc_back in Hb. injection Hb as _ _ -> ->. auto.
  - apply preserves_calc_right in Hb. injection Hb as _ _ -> ->. auto.
  - apply preserves_calc_left in Hb. injection Hb as _ _ -> ->. auto.
  - split; reflexivity.
Qed.

(** X2 - Status and reports.  [execute] ends in one of three ways: it
    finishes and has written neither report nor console line; or the
    geometry check cancels it, with its one warning and no console line;
    or an exception cancels it, with the other warning and one console
    line that carries the error.  So a cancelled invocation has reported
    exactly one warning and a finished one none. *)
Theorem status_and_reports ctx self w r w' :
  execute ctx self w = (r, w') ->
  (r = Ok FINISHED /\
   w_reports w' = w_reports w /\ w_console w' = w_console w) \/
  (r = Ok CANCELLED /\
   w_reports w' = w_reports w ++ [("WARNING", msg_degenerate)] /\
   w_console w' = w_console w) \/
  (exists e,
     r = Ok CANCELLED /\
     w_reports w' = w_reports w ++ [("WARNING", msg_exception)] /\
     w_console w' = w_console w ++ [console_text e]).
Proof.
  intros H.
  apply execute_cases in H as [(s & -> & Hb) | (e & w1 & -> & Hb & ->)];
    apply body_ends_logs in Hb.
  - destruct s; auto.
  - right; right. exists e. destruct Hb as [Hr Hc]. cbn. rewrite Hr, Hc. auto.
Qed.

Lemma status_and_reports_witness :
  (Ok CANCELLED = Ok FINISHED /\
   w_reports w0_failed = w_reports w0 /\ w_console w0_failed = w_console w0) \/
  (@Ok Status CANCELLED = Ok CANCELLED /\
   w_reports w0_failed = w_reports w0 ++ [("WARNING", msg_degenerate)] /\
   w_console w0_failed = w_console w0) \/
  (exists e,
     @Ok Status CANCELLED = Ok CANCELLED /\
     w_reports w0_failed = w_reports w0 ++ [("WARNING", msg_exception)] /\
     w_console w0_failed = w_console w0 ++ [console_text e]).
Proof.
  exact (status_and_reports ctx_fail self0 w0 _ _ run_ctx_fail_cancelled).
Defined.

Lemma execute_after_camera ctx self w r w' camera wc :
  find_camera ctx w = (Ok camera, wc) ->
  execute ctx self w = (r, w') ->
  w_cameras w' = w_cameras wc /\ w_scene_camera w' = w_scene_camera wc /\
  w_objects wc `prefix_of` w_objects w' /\
  w_collection wc `prefix_of` w_collection w'.
Proof.
  intros Hc H.
  apply execute_cases in H as [(s & _ & Hb) | (e & w1 & _ & Hb & ->)];
    apply body_ends_cameras in Hb
      as [(e' & He) | (camera' & wc' & Hc' & Ha & Hcam & Hsc)];
    try congruence;
    rewrite Hc in Hc'; injection Hc' as <- <-;
    destruct Ha as (_ & _ & Ho & Hk & _); auto.
Qed.

(** X3 - A camera that is found is used as it is.  When the operator
    finds a camera (the view's camera in a 3D view, the scene's camera
    elsewhere), then, whatever the outcome, it makes no camera data
    block and leaves the scene's camera as it was. *)
Theorem found_camera_untouched ctx self w r w' :
  is_Some (existing_camera ctx w) ->
  execute ctx self w = (r, w') ->
  w_cameras w' = w_cameras w /\ w_scene_camera w' = w_scene_camera w.
Proof.
  intros [c Hc] H.
  assert (Hs : is_Some (ctx_space_data ctx)).
  { unfold existing_camera in Hc.
    destruct (ctx_space_data ctx); [eauto | discriminate]. }
  pose proof (find_camera_found ctx w c Hs Hc) as Hf.
  destruct (execute_after_camera _ _ _ _ _ _ _ Hf H) as (H1 & H2 & _).
  auto.
Qed.

Lemma found_camera_untouched_witness :
  w_cameras w0_failed = w_cameras w0 /\
  w_scene_camera w0_failed = w_scene_camera w0.
Proof.
  exact (found_camera_untouched ctx_fail self0 w0 _ _
           (ex_intro _ 1%nat eq_refl) run_ctx_fail_cancelled).
Defined.




(** ** Without an editor, without an active object *)

(** X5 - No editor.  When the context has no editor (space_data is
    None, as in background mode), reading its type raises; the operator
    catches that, reports the warning, prints the error and returns
    [CANCELLED], and the scene is as it was: not even a camera is made. *)
Theorem no_editor_cancels ctx self w :
  ctx_space_data ctx = None ->
  exists w',
    execute ctx self w = (Ok CANCELLED, w') /\
    w_reports w' = w_reports w ++ [("WARNING", msg_exception)] /\
    w_console w' =
      w_console w ++ [console_text "'NoneType' object has no attribute 'type'"] /\
    scene w' = scene w.
Proof.
  intros Hs. eexists. split.
  - unfold execute, try_except, execute_body, bind, find_camera.
    rewrite Hs. reflexivity.
  - repeat split.
Qed.

Lemma no_editor_cancels_witness :
  exists w',
    execute ctx_background self0 w0 = (Ok CANCELLED, w') /\
    w_reports w' = w_reports w0 ++ [("WARNING", msg_exception)] /\
    w_console w' =
      w_console w0 ++ [console_text "'NoneType' object has no attribute 'type'"] /\
    scene w' = scene w0.
Proof. exact (no_editor_cancels ctx_background self0 w0 eq_refl). Defined.







(** ** The attributes of the lights that are made *)

Lemma configured_attributes name ty e shape size spot blend shadow :
  let d := configured name ty e shape size spot blend shadow in
  l_name d = name /\ l_type d = ty /\ l_energy d = Some e /\
  (is_Some (l_shape d) <-> ty = AREA) /\
  (is_Some (l_size d) <-> ty = AREA) /\
  (is_Some (l_spot_size d) <-> ty = SPOT) /\
  (is_Some (l_spot_blend d) <-> ty = SPOT) /\
  (is_Some (l_shadow_soft_size d) <-> ty = POINT \/ ty = SPOT).
Proof.
  cbn. do 3 (split; [reflexivity |]).
  destruct ty; repeat split;
    solve [ eauto
          | intros [? [=]]
          | intros [=]
          | intros [[=] | [=]] ].
Qed.

Lemma new_lights_made ctx self w r w' d :
  execute ctx self w = (r, w') ->
  In d (new_lights w w') ->
  d = back_light self \/ d = fill_light self \/ d = key_light self.
Proof.
  intros H Hin. apply execute_lights in H as [n Hn]. rewrite Hn in Hin.
  destruct (made_lights_named _ _ _ _ Hin eq_refl)
    as [[_ ->] | [[_ ->] | [_ ->]]]; auto.
Qed.

(** X8 - Attributes follow the type.  Whatever the outcome, every light
    the operator has made has its energy assigned, and of the other
    attributes exactly those of its type: shape and size if and only if
    it is an area light, spot size and spot blend if and only if it is a
    spot, the shadow soft size if and only if it is a point light or a
    spot; a sun gets the energy only.  The key light has the key type,
    the fill and back lights the secondary type. *)
Theorem attributes_follow_type ctx self w r w' d :
  execute ctx self w = (r, w') ->
  In d (new_lights w w') ->
  is_Some (l_energy d) /\
  (is_Some (l_shape d) <-> l_type d = AREA) /\
  (is_Some (l_size d) <-> l_type d = AREA) /\
  (is_Some (l_spot_size d) <-> l_type d = SPOT) /\
  (is_Some (l_spot_blend d) <-> l_type d = SPOT) /\
  (is_Some (l_shadow_soft_size d) <-> l_type d = POINT \/ l_type d = SPOT) /\
  (l_name d = "TriLamp-Key" -> l_type d = primarytype self) /\
  (l_name d <> "TriLamp-Key" -> l_type d = secondarytype self).
Proof.
  intros H Hin.
  destruct (new_lights_made _ _ _ _ _ _ H Hin) as [-> | [-> | ->]];
    unfold back_light, fill_light, key_light;
    match goal with
    | |- context [configured ?n ?t ?e ?sh ?sz ?sp ?bl ?sd] =>
        destruct (configured_attributes n t e sh sz sp bl sd)
          as (Hn & Ht & He & H1 & H2 & H3 & H4 & H5)
    end;
    rewrite Ht, Hn, He;
    (split; [eauto |]); do 5 (split; [assumption |]);
    split; intros Hk; solve [reflexivity | discriminate Hk | congruence].
Qed.

Lemma attributes_follow_type_witness :
  In (key_light self_spot) (new_lights w0 (w0_finished self_spot)) /\
  is_Some (l_energy (key_light self_spot)) /\
  (is_Some (l_shape (key_light self_spot)) <->
   l_type (key_light self_spot) = AREA) /\
  (is_Some (l_size (key_light self_spot)) <->
   l_type (key_light self_spot) = AREA) /\
  (is_Some (l_spot_size (key_light self_spot)) <->
   l_type (key_light self_spot) = SPOT) /\
  (is_Some (l_spot_blend (key_light self_spot)) <->
   l_type (key_light self_spot) = SPOT) /\
  (is_Some (l_shadow_soft_size (key_light self_spot)) <->
   l_type (key_light self_spot) = POINT \/ l_type (key_light self_spot) = SPOT) /\
  (l_name (key_light self_spot) = "TriLamp-Key" ->
   l_type (key_light self_spot) = primarytype self_spot) /\
  (l_name (key_light self_spot) <> "TriLamp-Key" ->
   l_type (key_light self_spot) = secondarytype self_spot).
Proof.
  assert (Hin : In (key_light self_spot)
                   (new_lights w0 (w0_finished self_spot)))
    by (right; right; left; reflexivity).
  split; [exact Hin |].
  exact (attributes_follow_type ctx0 self_spot w0 _ _ _
           (run_ctx0_finished self_spot) Hin).
Defined.

(** ** The energies *)

Lemma contrast_share self :
  props_in_range self ->
  0 <= IZR (energy self) / 100 * Rabs (IZR (contrast self)) <= IZR (energy self).
Proof.
  intros Hr. pose proof (energy_min _ Hr) as HE.
  pose proof (contrast_range _ Hr) as [HC1 HC2].
  apply IZR_le in HE, HC1, HC2.
  assert (Ha : 0 <= Rabs (IZR (contrast self)) <= 100).
  { split; [apply Rabs_pos |]. apply Rabs_le. lra. }
  nra.
Qed.

(** X9 - The energies stay within the base energy.  After a finished
    invocation with the properties in their declared ranges (energy at
    least 1, contrast from -100 to 100), the fill and the back light
    have the same energy, every energy lies between 0 and the base
    energy, and the key light or the fill and back lights have the base
    energy itself: the key light is the brighter one if the contrast is
    positive and the dimmer one otherwise.  With contrast 0 the key
    light has energy 0; with contrast 100 or -100 all three have the
    base energy. *)
Theorem energies_bounded ctx self w w' :
  props_in_range self ->
  execute ctx self w = (Ok FINISHED, w') ->
  exists back fill key eb ef ek,
    new_lights w w' = [back; fill; key] /\
    l_energy back = Some eb /\ l_energy fill = Some ef /\
    l_energy key = Some ek /\
    eb = ef /\
    0 <= ek <= IZR (energy self) /\
    0 <= ef <= IZR (energy self) /\
    (ek = IZR (energy self) \/ ef = IZR (energy self)) /\
    ((0 < contrast self)%Z -> ef <= ek) /\
    ((contrast self <= 0)%Z -> ek <= ef) /\
    (contrast self = 0%Z -> ek = 0) /\
    (contrast self = 100%Z \/ contrast self = (-100)%Z ->
     ek = IZR (energy self) /\ ef = IZR (energy self)).
Proof.
  intros Hr H. apply finished_shape in H as (_ & _ & _ & _ & _ & Hl & _).
  pose proof (contrast_share self Hr) as Hs.
  pose proof (energy_min _ Hr) as HE. apply IZR_le in HE.
  exists (back_light self), (fill_light self), (key_light self).
  do 3 eexists. split; [exact Hl |]. do 3 (split; [reflexivity |]).
  split; [reflexivity |].
  unfold key_energy, secondary_energy.
  destruct (0 <? contrast self)%Z eqn:HC;
    [apply Z.ltb_lt in HC | apply Z.ltb_ge in HC].
  - split; [lra |]. split; [exact Hs |]. split; [left; reflexivity |].
    split; [intros _; lra |]. split; [intros; lia |]. split; [intros; lia |].
    intros [HC' | HC']; [| lia]. rewrite HC'.
    rewrite Rabs_pos_eq by lra. split; lra.
  - split; [exact Hs |]. split; [lra |]. split; [right; reflexivity |].
    split; [intros; lia |]. split; [intros _; lra |].
    split.
    + intros ->. rewrite Rabs_R0. lra.
    + intros [HC' | HC']; [lia |]. rewrite HC'.
      rewrite Rabs_left by lra. split; lra.
Qed.

Lemma self0_in_range : props_in_range self0.
Proof. split; cbn; (lra || lia). Qed.

Lemma energies_bounded_witness :
  exists back fill key eb ef ek,
    new_lights w0 (w0_finished self0) = [back; fill; key] /\
    l_energy back = Some eb /\ l_energy fill = Some ef /\
    l_energy key = Some ek /\
    eb = ef /\
    0 <= ek <= IZR (energy self0) /\
    0 <= ef <= IZR (energy self0) /\
    (ek = IZR (energy self0) \/ ef = IZR (energy self0)) /\
    ((0 < contrast self0)%Z -> ef <= ek) /\
    ((contrast self0 <= 0)%Z -> ek <= ef) /\
    (contrast self0 = 0%Z -> ek = 0) /\
    (contrast self0 = 100%Z \/ contrast self0 = (-100)%Z ->
     ek = IZR (energy self0) /\ ef = IZR (energy self0)).
Proof.
  exact (energies_bounded ctx0 self0 w0 _ self0_in_range
           (run_ctx0_finished self0)).
Defined.

(** ** Objects, data blocks and links of a finished invocation *)





(** ** Where the lamps stand *)

Lemma finished_lamps ctx self w w' wc object_pos camera_pos :
  reaches_check ctx w wc object_pos camera_pos ->
  execute ctx self w = (Ok FINISHED, w') ->
  camera_pos <> object_pos /\
  new_lamps w w' =
    [lamp "TriLamp-Back" (length (w_lights w))
          (placement self (IZR (backangle self)) object_pos camera_pos)
          (ctx_active ctx);
     lamp "TriLamp-Fill" (S (length (w_lights w)))
          (placement self (IZR (rightangle self)) object_pos camera_pos)
          (ctx_active ctx);
     lamp "TriLamp-Key" (S (S (length (w_lights w))))
          (placement self (IZR (- leftangle self)) object_pos camera_pos)
          (ctx_active ctx)].
Proof.
  intros Hr H.
  apply finished_shape in H as (wc' & op & cp & Hr' & Hne & _ & Ho).
  destruct (reaches_check_unique _ _ _ _ _ _ _ _ Hr Hr') as (-> & -> & ->).
  auto.
Qed.

Lemma direction_components object_pos camera_pos :
  camera_pos <> object_pos ->
  let delta := vsub camera_pos object_pos in
  let L := vector_length_of delta in
  0 < L /\ L * L = vx delta ^ 2 + vy delta ^ 2 + vz delta ^ 2 /\
  vx (direction object_pos camera_pos) = vx delta / L /\
  vy (direction object_pos camera_pos) = vy delta / L.
Proof.
  intros Hne delta L.
  assert (HN : 0 <= vx delta ^ 2 + vy delta ^ 2 + vz delta ^ 2) by nra.
  assert (HL0 : 0 <= L) by apply sqrt_pos.
  assert (HLn : L <> 0).
  { intros Hz. apply Hne. apply degenerate_iff. exact Hz. }
  split; [destruct HL0 as [Hlt | Heq]; [exact Hlt | congruence] |].
  split; [apply sqrt_sqrt; exact HN |].
  unfold direction. fold delta. cbn [vscale vx vy].
  fold (vector_length_of delta). fold L. split; field; exact HLn.
Qed.

Lemma direction_level object_pos camera_pos :
  camera_pos <> object_pos ->
  vz camera_pos = vz object_pos ->
  vx (direction object_pos camera_pos) ^ 2 +
  vy (direction object_pos camera_pos) ^ 2 = 1.
Proof.
  intros Hne Hz.
  destruct (direction_components _ _ Hne) as (HL & HLL & -> & ->).
  set (delta := vsub camera_pos object_pos) in *.
  set (L := vector_length_of delta) in *.
  assert (Hdz : vz delta = 0) by (unfold delta, vsub; cbn; lra).
  rewrite Hdz in HLL.
  replace ((vx delta / L) ^ 2 + (vy delta / L) ^ 2)
    with ((vx delta ^ 2 + vy delta ^ 2) / (L * L)) by (field; lra).
  assert (0 < L * L) by nra.
  rewrite HLL in *. field. lra.
Qed.

(** X11 - A camera level with the object.  After a finished invocation
    in which the camera and the object have the same z, with the
    properties in their declared ranges, each lamp stands at exactly the
    configured distance from the object in the horizontal plane. *)
Theorem level_camera_full_distance ctx self w w' wc object_pos camera_pos :
  reaches_check ctx w wc object_pos camera_pos ->
  props_in_range self ->
  vz camera_pos = vz object_pos ->
  execute ctx self w = (Ok FINISHED, w') ->
  forall o, In o (new_lamps w w') ->
            horizontal_offset (o_location o) object_pos = distance self.
Proof.
  intros Hr Hrange Hz H o Hin.
  pose proof (distance_min _ Hrange) as Hd.
  destruct (finished_lamps _ _ _ _ _ _ _ Hr H) as [Hne Ho].
  rewrite Ho in Hin. cbn [In] in Hin.
  destruct Hin as [<- | [<- | [<- | []]]]; unfold lamp; cbn [o_location];
    rewrite placement_offset by lra;
    rewrite (direction_level _ _ Hne Hz), sqrt_1; ring.
Qed.

Lemma level_camera_full_distance_witness :
  In (lamp "TriLamp-Key" 2
        (placement self0 (IZR (- leftangle self0)) origin (mkVec3 0 (-5) 0))
        (Some 0%nat))
     (new_lamps w0 (w0_finished self0)) /\
  horizontal_offset
    (o_location
       (lamp "TriLamp-Key" 2
          (placement self0 (IZR (- leftangle self0)) origin (mkVec3 0 (-5) 0))
          (Some 0%nat)))
    origin = distance self0.
Proof.
  assert (Hin : In (lamp "TriLamp-Key" 2
                      (placement self0 (IZR (- leftangle self0)) origin
                         (mkVec3 0 (-5) 0))
                      (Some 0%nat))
                   (new_lamps w0 (w0_finished self0)))
    by (right; right; left; reflexivity).
  split; [exact Hin |].
  exact (level_camera_full_distance ctx0 self0 w0 _ w0 origin (mkVec3 0 (-5) 0)
           reaches_check_ctx0 self0_in_range eq_refl
           (run_ctx0_finished self0) _ Hin).
Defined.

Lemma placement_toward self theta object_pos camera_pos :
  camera_pos <> object_pos ->
  let delta := vsub camera_pos object_pos in
  let L := vector_length_of delta in
  toward_camera (placement self theta object_pos camera_pos)
                object_pos camera_pos
  = distance self * cos (radians theta)
    * ((vx delta ^ 2 + vy delta ^ 2) / L) /\
  side_of_camera (placement self theta object_pos camera_pos)
                 object_pos camera_pos
  = distance self * sin (radians theta)
    * ((vx delta ^ 2 + vy delta ^ 2) / L).
Proof.
  intros Hne. cbv zeta.
  destruct (direction_components _ _ Hne) as (HL & _ & Hx & Hy).
  unfold toward_camera, side_of_camera, placement, rotate.
  cbn [vx vy fst snd]. rewrite Hx, Hy.
  replace (vx camera_pos - vx object_pos)
    with (vx (vsub camera_pos object_pos)) by reflexivity.
  replace (vy camera_pos - vy object_pos)
    with (vy (vsub camera_pos object_pos)) by reflexivity.
  set (delta := vsub camera_pos object_pos) in *.
  set (L := vector_length_of delta) in *.
  split; field; lra.
Qed.

Lemma radians_quarter z :
  (1 <= z <= 90)%Z -> 0 <= radians (IZR z) <= PI / 2.
Proof.
  intros [H1 H2]. apply IZR_le in H1, H2. pose proof PI_RGT_0.
  unfold radians. split; nra.
Qed.

Lemma radians_back z :
  (90 <= z <= 270)%Z -> PI / 2 <= radians (IZR z) <= 3 * (PI / 2).
Proof.
  intros [H1 H2]. apply IZR_le in H1, H2. pose proof PI_RGT_0.
  unfold radians. split; nra.
Qed.

Lemma radians_opp z : radians (IZR (- z)) = - radians (IZR z).
Proof. unfold radians. rewrite opp_IZR. ring. Qed.

(** X12 - Key and fill before the object, back light behind it.  After
    a finished invocation with the properties in their declared ranges
    (left and right angle from 1 to 90 degrees, back angle from 90 to
    270), seen in the horizontal plane from the object: the key and the
    fill lamp lie on the camera's side (their offsets have a
    non-negative component toward the camera), the back lamp on the far
    side, and the key and fill lamps lie on opposite sides of the line
    from the object to the camera. *)
Theorem lamps_around_camera_line ctx self w w' wc object_pos camera_pos :
  reaches_check ctx w wc object_pos camera_pos ->
  props_in_range self ->
  execute ctx self w = (Ok FINISHED, w') ->
  exists back fill key,
    new_lamps w w' = [back; fill; key] /\
    0 <= toward_camera (o_location key) object_pos camera_pos /\
    0 <= toward_camera (o_location fill) object_pos camera_pos /\
    toward_camera (o_location back) object_pos camera_pos <= 0 /\
    side_of_camera (o_location key) object_pos camera_pos <= 0 /\
    0 <= side_of_camera (o_location fill) object_pos camera_pos.
Proof.
  intros Hr Hrange H.
  destruct (finished_lamps _ _ _ _ _ _ _ Hr H) as [Hne Ho].
  do 3 eexists. split; [exact Ho |]. unfold lamp; cbn [o_location].
  destruct (direction_components _ _ Hne) as (HL & _ & _ & _).
  set (delta := vsub camera_pos object_pos) in *.
  set (L := vector_length_of delta) in *.
  assert (Hq : 0 <= (vx delta ^ 2 + vy delta ^ 2) / L).
  { apply Rmult_le_pos; [nra | left; apply Rinv_0_lt_compat, HL]. }
  pose proof (distance_min _ Hrange) as Hd.
  pose proof (radians_quarter _ (leftangle_range _ Hrange)) as [Hl1 Hl2].
  pose proof (radians_quarter _ (rightangle_range _ Hrange)) as [Hr1 Hr2].
  pose proof (radians_back _ (backangle_range _ Hrange)) as [Hb1 Hb2].
  pose proof PI_RGT_0 as Hpi.
  destruct (placement_toward self (IZR (- leftangle self)) _ _ Hne) as [-> ->].
  destruct (placement_toward self (IZR (rightangle self)) _ _ Hne) as [-> ->].
  destruct (placement_toward self (IZR (backangle self)) _ _ Hne) as [-> _].
  fold delta. fold L. rewrite radians_opp, cos_neg, sin_neg.
  assert (0 <= cos (radians (IZR (leftangle self))))
    by (apply cos_ge_0; lra).
  assert (0 <= sin (radians (IZR (leftangle self))))
    by (apply sin_ge_0; lra).
  assert (0 <= cos (radians (IZR (rightangle self))))
    by (apply cos_ge_0; lra).
  assert (0 <= sin (radians (IZR (rightangle self))))
    by (apply sin_ge_0; lra).
  assert (cos (radians (IZR (backangle self))) <= 0)
    by (apply cos_le_0; lra).
  assert (Hpos : forall c, 0 <= c ->
            0 <= distance self * c * ((vx delta ^ 2 + vy delta ^ 2) / L)).
  { intros c Hc. apply Rmult_le_pos; [apply Rmult_le_pos; lra | exact Hq]. }
  split; [apply Hpos; assumption |]. split; [apply Hpos; assumption |].
  split.
  { pose proof (Hpos (- cos (radians (IZR (backangle self)))) ltac:(lra)). lra. }
  split; [| apply Hpos; assumption].
  pose proof (Hpos (sin (radians (IZR (leftangle self)))) ltac:(assumption)). lra.
Qed.

Lemma lamps_around_camera_line_witness :
  exists back fill key,
    new_lamps w0 (w0_finished self0) = [back; fill; key] /\
    0 <= toward_camera (o_location key) origin (mkVec3 0 (-5) 0) /\
    0 <= toward_camera (o_location fill) origin (mkVec3 0 (-5) 0) /\
    toward_camera (o_location back) origin (mkVec3 0 (-5) 0) <= 0 /\
    side_of_camera (o_location key) origin (mkVec3 0 (-5) 0) <= 0 /\
    0 <= side_of_camera (o_location fill) origin (mkVec3 0 (-5) 0).
Proof.
  exact (lamps_around_camera_line ctx0 self0 w0 _ w0 origin (mkVec3 0 (-5) 0)
           reaches_check_ctx0 self0_in_range (run_ctx0_finished self0)).
Defined.

(** X13 - The rotation of the placement is a rotation.  The formula the
    three blocks compute, as they write it, is rx = cos t * x - sin t * y,
    ry = sin t * x + cos t * y (t in degrees); turning by 0 degrees
    changes nothing, turning by b degrees and then by a degrees is
    turning by a + b degrees, and the length of the vector is kept. *)
Theorem rotation_laws (a b x y : R) :
  (cos (radians a) * x + (- sin (radians a) * y),
   sin (radians a) * x + (cos (radians a) * y)) = rotate a (x, y) /\
  rotate 0 (x, y) = (x, y) /\
  rotate a (rotate b (x, y)) = rotate (a + b) (x, y) /\
  fst (rotate a (x, y)) ^ 2 + snd (rotate a (x, y)) ^ 2 = x ^ 2 + y ^ 2.
Proof.
  split; [| split; [| split]].
  - unfold rotate; cbn [fst snd]. f_equal; ring.
  - unfold rotate, radians; cbn [fst snd].
    replace (0 * (PI / 180)) with 0 by ring. rewrite cos_0, sin_0.
    f_equal; ring.
  - unfold rotate; cbn [fst snd].
    replace (radians (a + b)) with (radians a + radians b)
      by (unfold radians; ring).
    rewrite cos_plus, sin_plus. f_equal; ring.
  - apply rotate_norm.
Qed.

Lemma direction_scale object_pos camera_pos camera_pos' t :
  0 < t ->
  camera_pos <> object_pos ->
  vsub camera_pos' object_pos = vscale t (vsub camera_pos object_pos) ->
  direction object_pos camera_pos' = direction object_pos camera_pos.
Proof.
  intros Ht Hne Hs.
  destruct (direction_components _ _ Hne) as (HL & HLL & _ & _).
  unfold direction. rewrite Hs.
  set (delta := vsub camera_pos object_pos) in *.
  fold (vector_length_of (vscale t delta)). fold (vector_length_of delta).
  set (L := vector_length_of delta) in *.
  assert (HtL : vector_length_of (vscale t delta) = t * L).
  { unfold vector_length_of, vscale; cbn [vx vy vz].
    apply sqrt_lem_1; [nra | nra |].
    replace (t * L * (t * L)) with (t * t * (L * L)) by ring.
    rewrite HLL. ring. }
  rewrite HtL. unfold vscale; cbn [vx vy vz].
  f_equal; field; lra.
Qed.

(** X14 - Only the direction of the camera counts.  Two finished
    invocations with the same properties and the same object position,
    whose cameras are seen from the object in the same direction at any
    two distances, put their lamps at the same places. *)
Theorem camera_distance_irrelevant
    ctx1 ctx2 self w1 w1' w2 w2' wc1 wc2 object_pos camera_pos1 camera_pos2 t :
  reaches_check ctx1 w1 wc1 object_pos camera_pos1 ->
  reaches_check ctx2 w2 wc2 object_pos camera_pos2 ->
  0 < t ->
  vsub camera_pos2 object_pos = vscale t (vsub camera_pos1 object_pos) ->
  execute ctx1 self w1 = (Ok FINISHED, w1') ->
  execute ctx2 self w2 = (Ok FINISHED, w2') ->
  map o_location (new_lamps w1 w1') = map o_location (new_lamps w2 w2').
Proof.
  intros Hr1 Hr2 Ht Hs H1 H2.
  destruct (finished_lamps _ _ _ _ _ _ _ Hr1 H1) as [Hne ->].
  destruct (finished_lamps _ _ _ _ _ _ _ Hr2 H2) as [_ ->].
  unfold lamp; cbn [map o_location]. unfold placement.
  rewrite (direction_scale _ _ _ _ Ht Hne Hs). reflexivity.
Qed.

Lemma reaches_check_far :
  reaches_check ctx0 w_far w_far origin (mkVec3 0 (-10) 0).
Proof.
  eapply (reaches_check_found ctx0 w_far 1%nat _ _ 0%nat); cbn; eauto.
Qed.

Lemma run_far :
  execute ctx0 self0 w_far =
  (Ok FINISHED, three_lights ctx0 self0 origin (mkVec3 0 (-10) 0) w_far).
Proof.
  apply execute_progress.
  - intros s. reflexivity.
  - exact reaches_check_far.
  - unfold origin. intros [= H]. lra.
Qed.

Lemma camera_distance_irrelevant_witness :
  map o_location (new_lamps w0 (w0_finished self0)) =
  map o_location
    (new_lamps w_far (three_lights ctx0 self0 origin (mkVec3 0 (-10) 0) w_far)).
Proof.
  assert (Ht : 0 < 2) by lra.
  assert (Hs : vsub (mkVec3 0 (-10) 0) origin
               = vscale 2 (vsub (mkVec3 0 (-5) 0) origin)).
  { unfold vsub, vscale, origin; cbn [vx vy vz]. f_equal; ring. }
  exact (camera_distance_irrelevant ctx0 ctx0 self0 w0 _ w_far _ w0 w_far
           origin (mkVec3 0 (-5) 0) (mkVec3 0 (-10) 0) 2
           reaches_check_ctx0 reaches_check_far Ht Hs
           (run_ctx0_finished self0) run_far).
Defined.

(** ** The panel *)

Lemma In_string_existsb (s : string) (l : list string) :
  In s l <-> existsb (String.eqb s) l = true.
Proof.
  rewrite existsb_exists. split.
  - intros H. exists s. split; [exact H | apply String.eqb_refl].
  - intros (x & Hx & He). apply String.eqb_eq in He. subst x. exact Hx.
Qed.

Ltac shown_iff :=
  rewrite In_string_existsb;
  let H := fresh "H" in
  split; intros H;
  [ first [ solve [eexists; reflexivity] | vm_compute in H; discriminate H ]
  | first [ vm_compute; reflexivity | destruct H as [? H]; discriminate H ] ].

(** X15 - The panel shows what [execute] applies.  After a finished
    invocation, a type-specific field is drawn in the panel if and only
    if [execute] has assigned the attribute it stands for: the key
    shape, size, shadow soft size, spot size and spot blend fields
    against the attributes of the key light, the secondary ones against
    those of the fill light and of the back light. *)
Theorem panel_matches_lights ctx self w w' :
  execute ctx self w = (Ok FINISHED, w') ->
  exists back fill key,
    new_lights w w' = [back; fill; key] /\
    let shown := fields (draw self) in
    (In "key_light_shape" shown <-> is_Some (l_shape key)) /\
    (In "key_light_size" shown <-> is_Some (l_size key)) /\
    (In "shadow_soft_size_key" shown <-> is_Some (l_shadow_soft_size key)) /\
    (In "spot_size_key" shown <-> is_Some (l_spot_size key)) /\
    (In "spot_blend_key" shown <-> is_Some (l_spot_blend key)) /\
    (In "secondary_light_shape" shown <-> is_Some (l_shape fill)) /\
    (In "secondary_light_size" shown <-> is_Some (l_size fill)) /\
    (In "shadow_soft_size_fill" shown <-> is_Some (l_shadow_soft_size fill)) /\
    (In "spot_size_fill" shown <-> is_Some (l_spot_size fill)) /\
    (In "spot_blend_fill" shown <-> is_Some (l_spot_blend fill)) /\
    (In "secondary_light_shape" shown <-> is_Some (l_shape back)) /\
    (In "secondary_light_size" shown <-> is_Some (l_size back)) /\
    (In "shadow_soft_size_fill" shown <-> is_Some (l_shadow_soft_size back)) /\
    (In "spot_size_fill" shown <-> is_Some (l_spot_size back)) /\
    (In "spot_blend_fill" shown <-> is_Some (l_spot_blend back)).
Proof.
  intros H. apply finished_shape in H as (_ & _ & _ & _ & _ & Hl & _).
  exists (back_light self), (fill_light self), (key_light self).
  split; [exact Hl |].
  unfold draw, back_light, fill_light, key_light, configured.
  cbn [l_shape l_size l_spot_size l_spot_blend l_shadow_soft_size].
  destruct (primarytype self), (secondarytype self); cbv zeta;
    repeat match goal with |- _ /\ _ => split end; shown_iff.
Qed.

Lemma panel_matches_lights_witness :
  exists back fill key,
    new_lights w0 (w0_finished self_spot) = [back; fill; key] /\
    let shown := fields (draw self_spot) in
    (In "key_light_shape" shown <-> is_Some (l_shape key)) /\
    (In "key_light_size" shown <-> is_Some (l_size key)) /\
    (In "shadow_soft_size_key" shown <-> is_Some (l_shadow_soft_size key)) /\
    (In "spot_size_key" shown <-> is_Some (l_spot_size key)) /\
    (In "spot_blend_key" shown <-> is_Some (l_spot_blend key)) /\
    (In "secondary_light_shape" shown <-> is_Some (l_shape fill)) /\
    (In "secondary_light_size" shown <-> is_Some (l_size fill)) /\
    (In "shadow_soft_size_fill" shown <-> is_Some (l_shadow_soft_size fill)) /\
    (In "spot_size_fill" shown <-> is_Some (l_spot_size fill)) /\
    (In "spot_blend_fill" shown <-> is_Some (l_spot_blend fill)) /\
    (In "secondary_light_shape" shown <-> is_Some (l_shape back)) /\
    (In "secondary_light_size" shown <-> is_Some (l_size back)) /\
    (In "shadow_soft_size_fill" shown <-> is_Some (l_shadow_soft_size back)) /\
    (In "spot_size_fill" shown <-> is_Some (l_spot_size back)) /\
    (In "spot_blend_fill" shown <-> is_Some (l_spot_blend back)).
Proof.
  exact (panel_matches_lights ctx0 self_spot w0 _ (run_ctx0_finished self_spot)).
Defined.

(** X16 - The panel is well formed.  Whatever the two light types, the
    panel draws no property twice, draws only declared properties, and
    begins with the nine general fields, in the order height, distance,
    energy, contrast, the three angles and the two types.  The two
    headings for shape and size are drawn for every type, also when no
    field follows them. *)
Theorem panel_well_formed self :
  NoDup (fields (draw self)) /\
  (forall f, In f (fields (draw self)) -> In f declared_properties) /\
  take 9 (fields (draw self)) =
    [ "height"; "distance"; "energy"; "contrast"; "leftangle"; "rightangle";
      "backangle"; "primarytype"; "secondarytype" ] /\
  In (ColLabel "Key Light Shape and Size:") (draw self) /\
  In (ColLabel "Fill + Back Light Shape and Size:") (draw self).
Proof.
  split; [| split; [| split; [| split]]].
  - unfold draw. destruct (primarytype self), (secondarytype self);
      apply (bool_decide_unpack _); vm_compute; exact I.
  - intros f Hf. apply In_string_existsb. revert f Hf.
    apply forallb_forall with
      (f := fun f => existsb (String.eqb f) declared_properties).
    unfold draw. destruct (primarytype self), (secondarytype self);
      vm_compute; reflexivity.
  - unfold draw. destruct (primarytype self), (secondarytype self);
      reflexivity.
  - unfold draw. apply in_or_app. left.
    repeat first [left; reflexivity | right].
  - unfold draw. do 4 (apply in_or_app; right).
    apply in_or_app. left. left. reflexivity.
Qed.

(** ** Lamps apart, lamps at the same place *)

(** X17 - Key and fill never stand at the same place.  After a
    finished invocation with the properties in their declared ranges,
    if the camera is not straight above or below the object, the key
    lamp lies strictly on one side of the line from the object to the
    camera and the fill lamp strictly on the other, so the two are at
    different places. *)
Theorem key_and_fill_apart ctx self w w' wc object_pos camera_pos :
  reaches_check ctx w wc object_pos camera_pos ->
  props_in_range self ->
  vx camera_pos <> vx object_pos \/ vy camera_pos <> vy object_pos ->
  execute ctx self w = (Ok FINISHED, w') ->
  exists back fill key,
    new_lamps w w' = [back; fill; key] /\
    side_of_camera (o_location key) object_pos camera_pos < 0 /\
    0 < side_of_camera (o_location fill) object_pos camera_pos /\
    o_location key <> o_location fill.
Proof.
  intros Hr Hrange Hxy H.
  destruct (finished_lamps _ _ _ _ _ _ _ Hr H) as [Hne Ho].
  do 3 eexists. split; [exact Ho |]. unfold lamp; cbn [o_location].
  destruct (direction_components _ _ Hne) as (HL & _ & _ & _).
  destruct (placement_toward self (IZR (- leftangle self)) _ _ Hne) as [_ Hk].
  destruct (placement_toward self (IZR (rightangle self)) _ _ Hne) as [_ Hf].
  set (delta := vsub camera_pos object_pos) in *.
  set (L := vector_length_of delta) in *.
  assert (Hq : 0 < (vx delta ^ 2 + vy delta ^ 2) / L).
  { apply Rmult_lt_0_compat; [| apply Rinv_0_lt_compat, HL].
    unfold delta, vsub; cbn [vx vy].
    assert (Hsq : forall r, r <> 0 -> 0 < r ^ 2)
      by (intros r Hr0; rewrite <- Rsqr_pow2; apply Rlt_0_sqr, Hr0).
    destruct Hxy as [Hx | Hy].
    - assert (vx camera_pos - vx object_pos <> 0)
        by (intros Hz; apply Hx; lra).
      pose proof (Hsq _ H0).
      pose proof (pow2_ge_0 (vy camera_pos - vy object_pos)). lra.
    - assert (vy camera_pos - vy object_pos <> 0)
        by (intros Hz; apply Hy; lra).
      pose proof (Hsq _ H0).
      pose proof (pow2_ge_0 (vx camera_pos - vx object_pos)). lra. }
  pose proof (distance_min _ Hrange) as Hd.
  pose proof (radians_quarter _ (leftangle_range _ Hrange)) as [Hl1 Hl2].
  pose proof (radians_quarter _ (rightangle_range _ Hrange)) as [Hr1 Hr2].
  pose proof (leftangle_range _ Hrange) as [Hl0 _].
  pose proof (rightangle_range _ Hrange) as [Hr0 _].
  apply IZR_le in Hl0, Hr0. pose proof PI_RGT_0 as Hpi.
  assert (Hsl : 0 < sin (radians (IZR (leftangle self))))
    by (apply sin_gt_0; unfold radians in *; nra).
  assert (Hsr : 0 < sin (radians (IZR (rightangle self))))
    by (apply sin_gt_0; unfold radians in *; nra).
  assert (Hpos : forall s, 0 < s ->
            0 < distance self * s * ((vx delta ^ 2 + vy delta ^ 2) / L)).
  { intros s Hs.
    apply Rmult_lt_0_compat; [apply Rmult_lt_0_compat; lra | exact Hq]. }
  assert (Hkey : side_of_camera
                   (placement self (IZR (- leftangle self)) object_pos camera_pos)
                   object_pos camera_pos < 0).
  { rewrite Hk, radians_opp, sin_neg.
    pose proof (Hpos _ Hsl). lra. }
  assert (Hfill : 0 < side_of_camera
                        (placement self (IZR (rightangle self)) object_pos camera_pos)
                        object_pos camera_pos).
  { rewrite Hf. apply Hpos. exact Hsr. }
  split; [exact Hkey |]. split; [exact Hfill |].
  intros Heq. rewrite Heq in Hkey. lra.
Qed.

Lemma key_and_fill_apart_witness :
  exists back fill key,
    new_lamps w0 (w0_finished self0) = [back; fill; key] /\
    side_of_camera (o_location key) origin (mkVec3 0 (-5) 0) < 0 /\
    0 < side_of_camera (o_location fill) origin (mkVec3 0 (-5) 0) /\
    o_location key <> o_location fill.
Proof.
  assert (Hxy : vx (mkVec3 0 (-5) 0) <> vx origin \/
                vy (mkVec3 0 (-5) 0) <> vy origin)
    by (right; cbn; lra).
  exact (key_and_fill_apart ctx0 self0 w0 _ w0 origin (mkVec3 0 (-5) 0)
           reaches_check_ctx0 self0_in_range Hxy (run_ctx0_finished self0)).
Defined.

Lemma rotate_270_is_minus_90 v : rotate 270 v = rotate (-90) v.
Proof.
  unfold rotate, radians.
  replace (270 * (PI / 180)) with (3 * (PI / 2)) by field.
  replace (-90 * (PI / 180)) with (- (PI / 2)) by field.
  rewrite cos_3PI2, sin_3PI2, cos_neg, sin_neg, cos_PI2, sin_PI2.
  reflexivity.
Qed.

(** X18 - At the ends of the angle ranges lamps coincide.  After a
    finished invocation, if the back angle is 270 and the left angle 90
    the key lamp stands at the very place of the back lamp, and if the
    back angle is 90 and the right angle 90 the fill lamp does. *)
Theorem lamps_coincide_at_range_ends ctx self w w' :
  execute ctx self w = (Ok FINISHED, w') ->
  exists back fill key,
    new_lamps w w' = [back; fill; key] /\
    (backangle self = 270%Z -> leftangle self = 90%Z ->
     o_location key = o_location back) /\
    (backangle self = 90%Z -> rightangle self = 90%Z ->
     o_location fill = o_location back).
Proof.
  intros H. apply finished_shape in H as (wc & op & cp & _ & _ & _ & Ho).
  do 3 eexists. split; [exact Ho |]. unfold lamp; cbn [o_location].
  split.
  - intros -> ->. unfold placement. cbn [Z.opp].
    rewrite rotate_270_is_minus_90. reflexivity.
  - intros -> ->. reflexivity.
Qed.

Lemma run_ctx0_ends :
  execute ctx0 self_ends w0 = (Ok FINISHED, w0_finished self_ends).
Proof. apply run_ctx0. Qed.

Lemma lamps_coincide_at_range_ends_witness :
  exists back fill key,
    new_lamps w0 (w0_finished self_ends) = [back; fill; key] /\
    (backangle self_ends = 270%Z -> leftangle self_ends = 90%Z ->
     o_location key = o_location back) /\
    (backangle self_ends = 90%Z -> rightangle self_ends = 90%Z ->
     o_location fill = o_location back).
Proof.
  exact (lamps_coincide_at_range_ends ctx0 self_ends w0 _ run_ctx0_ends).
Defined.
